(** * piper: the MusicBrainz lookup service (service/musicbrainz/musicbrainz.go)

    A shallow embedding of the search cache, the release selector and the
    track hydrator, and the properties of the specification settled on it.

    Conventions of the embedding.
    - Go strings are byte strings: [string] with [String.compare] (byte-wise
      lexicographic order, as Go's [<] on strings) and [String.length]
      (number of bytes, as Go's [len]).
    - [time.Time] values are integers (instants on one clock), [time.Duration]
      too; [Before] is [<] and [Add] is [+].
    - A release slice is a reference to its backing array in a heap of
      arrays, so that the in-place sort of [GetBestRelease] is seen by every
      holder of the slice.  The other slices are never written by this file
      and are kept as lists.
    - The rate limiter, the HTTP client, the JSON decoder and the clock are
      the environment of one call ([Env]); the calls made to the limiter
      and the network are recorded in the store.
    - [log.Printf] only writes to the process log and is left out, as are
      the User-Agent header and the closing of the response body; the mutex
      is not modelled: the model is sequential. *)

From Stdlib Require Import ZArith Lia Ascii String List Bool Permutation Sorted.
From Stdlib Require OrderedTypeEx.
From stdpp Require Import gmap strings list fin_maps.

Local Open Scope string_scope.
Local Open Scope Z_scope.

(** ** Strings *)

Definition dquote : string := String "034"%char EmptyString.

(** [strings.Join] *)
Definition Join (elems : list string) (sep : string) : string :=
  String.concat sep elems.

(** The test for the empty string, as the comparisons of a field with the empty
    string literal in the source. *)
Definition is_empty (s : string) : bool :=
  match s with EmptyString => true | String _ _ => false end.

(** *** [url.QueryEscape] of Go's net/url

    Letters, digits and [-_.~] are kept, a space becomes [+], and every other
    byte [c] becomes [%XY] with [X] and [Y] the upper-case hexadecimal digits
    of [c >> 4] and [c & 15]. *)

Definition in_range (lo hi c : ascii) : bool :=
  (N_of_ascii lo <=? N_of_ascii c)%N && (N_of_ascii c <=? N_of_ascii hi)%N.

Definition shouldEscape (c : ascii) : bool :=
  if in_range "a" "z" c || in_range "A" "Z" c || in_range "0" "9" c then false
  else if Ascii.eqb c "-" || Ascii.eqb c "_" || Ascii.eqb c "." || Ascii.eqb c "~"
  then false
  else true.

Definition upperhex (n : N) : ascii :=
  match String.get (N.to_nat n) "0123456789ABCDEF" with
  | Some d => d
  | None => "0"%char
  end.

Definition escape_byte (c : ascii) : string :=
  if shouldEscape c then
    if Ascii.eqb c " " then String "+" EmptyString
    else String "%" (String (upperhex (N.shiftr (N_of_ascii c) 4))
                    (String (upperhex (N.land (N_of_ascii c) 15)) EmptyString))
  else String c EmptyString.

Fixpoint QueryEscape (s : string) : string :=
  match s with
  | EmptyString => EmptyString
  | String c s' => escape_byte c ++ QueryEscape s'
  end.

(** ** MusicBrainz API types *)

Record MusicBrainzArtistCredit := {
  ac_Artist_ID : string;
  ac_Artist_Name : string;
  ac_Artist_SortName : string;
  ac_Joinphrase : string;
  ac_Name : string
}.

Record MusicBrainzRelease := {
  rel_ID : string;
  rel_Title : string;
  rel_Status : string;
  rel_Date : string;
  rel_Country : string;
  rel_Disambiguation : string;
  rel_TrackCount : Z
}.

(** A slice of releases: the address of its backing array. *)
Definition loc := nat.

Record MusicBrainzRecording := {
  rec_ID : string;
  rec_Title : string;
  rec_Length : Z;
  rec_ISRCs : list string;
  rec_ArtistCredit : list MusicBrainzArtistCredit;
  rec_Releases : loc
}.

(** A recording as the JSON decoder reads it, before its release array is
    placed in the heap. *)
Record RecordingJSON := {
  j_ID : string;
  j_Title : string;
  j_Length : Z;
  j_ISRCs : list string;
  j_ArtistCredit : list MusicBrainzArtistCredit;
  j_Releases : list MusicBrainzRelease
}.

Record SearchParams := {
  Track : string;
  Artist : string;
  Release : string
}.

Record cacheEntry := {
  recordings : list MusicBrainzRecording;
  expiresAt : Z
}.

(** The cleaner is not part of this file of the repository: its two methods
    are taken as they are called, returning a string and an optional error. *)
Record MetadataCleaner := {
  CleanRecording : string -> string * option string;
  CleanArtist : string -> string * option string
}.

Record MusicBrainzService := {
  searchCache : gmap string cacheEntry;
  cacheTTL : Z;
  cleaner : MetadataCleaner
}.

(** ** The heap of release arrays *)

Abbreviation Heap := (gmap loc (list MusicBrainzRelease)).

Definition slice_elems (h : Heap) (s : loc) : list MusicBrainzRelease :=
  default [] (h !! s).

Definition alloc (h : Heap) (rs : list MusicBrainzRelease) : Heap * loc :=
  let l := fresh (dom h) in (<[l := rs]> h, l).

Definition alloc_recording (h : Heap) (j : RecordingJSON) : Heap * MusicBrainzRecording :=
  let '(h', l) := alloc h (j_Releases j) in
  (h', {| rec_ID := j_ID j; rec_Title := j_Title j; rec_Length := j_Length j;
          rec_ISRCs := j_ISRCs j; rec_ArtistCredit := j_ArtistCredit j;
          rec_Releases := l |}).

Fixpoint alloc_recordings (h : Heap) (js : list RecordingJSON)
  : Heap * list MusicBrainzRecording :=
  match js with
  | [] => (h, [])
  | j :: js' =>
      let '(h1, r) := alloc_recording h j in
      let '(h2, rs) := alloc_recordings h1 js' in
      (h2, r :: rs)
  end.

(** ** generateCacheKey *)

Definition generateCacheKey (params : SearchParams) : string :=
  "track=" ++ QueryEscape (Track params) ++
  "&artist=" ++ QueryEscape (Artist params) ++
  "&release=" ++ QueryEscape (Release params).

(** ** sort.SliceStable

    Go's stable sort runs the insertion sort below on blocks of the slice
    and merges the blocks, keeping equal elements in their original order.
    The model is that insertion sort on the whole slice: element [i] sinks to
    the left while it is less than its left neighbour.  [sink x rp] takes
    the sorted prefix reversed, the nearest neighbour first. *)

Section SliceStable.
Context {A : Type} (less : A -> A -> bool).

Fixpoint sink (x : A) (rp : list A) : list A :=
  match rp with
  | [] => [x]
  | y :: rp' => if less x y then y :: sink x rp' else x :: rp
  end.

Definition SliceStable (l : list A) : list A :=
  rev (fold_left (fun rp x => sink x rp) l []).
End SliceStable.

(** ** GetBestRelease *)

(** The [less] function handed to [sort.SliceStable]. *)
Definition release_less (a b : MusicBrainzRelease) : bool :=
  let dateA := rel_Date a in
  let dateB := rel_Date b in
  let validDateA := (4 <=? String.length dateA)%nat in
  let validDateB := (4 <=? String.length dateB)%nat in
  if validDateA && negb validDateB then true
  else if negb validDateA && validDateB then false
  else if negb (String.eqb dateA dateB) then String.ltb dateA dateB
  else if negb (String.eqb (rel_Title a) (rel_Title b))
       then String.ltb (rel_Title a) (rel_Title b)
  else String.ltb (rel_ID a) (rel_ID b).

(** The test of the first scan. *)
Definition preferred (trackTitle : string) (release : MusicBrainzRelease) : bool :=
  (String.eqb (rel_Country release) "XW" || String.eqb (rel_Country release) "US")
  && negb (String.eqb (rel_Title release) trackTitle).

(** The test of the second scan. *)
Definition other_title (trackTitle : string) (release : MusicBrainzRelease) : bool :=
  negb (String.eqb (rel_Title release) trackTitle).

(** The function returns the heap after the call and the release pointed to
    by the result ([None] for [nil]).  With two releases or more the backing
    array of [releases] is sorted in place. *)
Definition GetBestRelease (h : Heap) (releases : loc) (trackTitle : string)
  : Heap * option MusicBrainzRelease :=
  match slice_elems h releases with
  | [] => (h, None)
  | [r] => (h, Some r)
  | rs =>
      let sorted := SliceStable release_less rs in
      let h' := <[releases := sorted]> h in
      match List.find (preferred trackTitle) sorted with
      | Some release => (h', Some release)
      | None =>
          match List.find (other_title trackTitle) sorted with
          | Some release => (h', Some release)
          | None => (h', head sorted)
          end
      end
  end.

(** ** The store and the environment of a call *)

Inductive Call :=
| LimiterWait
| HttpDo (endpoint : string).

Record Store := {
  svc : MusicBrainzService;
  heap : Heap;
  calls : list Call
}.

Definition record_call (c : Call) (st : Store) : Store :=
  {| svc := svc st; heap := heap st; calls := calls st ++ [c] |}.

(** [limiter.Wait]: admitted, or an error, with whether [ctx.Err()] is set. *)
Inductive WaitOutcome :=
| WaitOk
| WaitErr (ctxErr : bool).

(** [httpClient.Do]: an error (with whether [ctx.Err()] is set) or a response. *)
Inductive DoOutcome :=
| DoErr (ctxErr : bool)
| DoResp (StatusCode : Z) (Body : string).

Record Env := {
  clock_check : Z;                       (* time.Now() before the cache read *)
  limiter_Wait : WaitOutcome;
  NewRequest_fails : string -> bool;     (* http.NewRequestWithContext *)
  httpClient_Do : string -> DoOutcome;
  json_Decode : string -> option (list RecordingJSON);
  clock_store : Z                        (* time.Now() at the cache write *)
}.

Inductive SearchError :=
| ErrNoParameter
| ErrWaitCancelled
| ErrRateLimiter
| ErrCreateRequest
| ErrRequestContext
| ErrExecuteRequest (endpoint : string)
| ErrStatus (endpoint : string) (StatusCode : Z)
| ErrDecode (endpoint : string).

Inductive result (E A : Type) :=
| Ok (a : A)
| Err (e : E).
Arguments Ok {E A} a.
Arguments Err {E A} e.

(** ** SearchMusicBrainz *)

(** "clean params": the two assignments that follow the validation. *)
Definition clean_params (s : MusicBrainzService) (params : SearchParams) : SearchParams :=
  let params := {| Track := fst (CleanRecording (cleaner s) (Track params));
                   Artist := Artist params; Release := Release params |} in
  let params := {| Track := Track params;
                   Artist := fst (CleanArtist (cleaner s) (Artist params));
                   Release := Release params |} in
  params.

Definition build_query (params : SearchParams) : string :=
  let queryParts : list string := [] in
  let queryParts :=
    if negb (is_empty (Track params))
    then app queryParts [("recording:" ++ dquote ++ Track params ++ dquote)%string]
    else queryParts in
  let queryParts :=
    if negb (is_empty (Artist params))
    then app queryParts [("artist:" ++ dquote ++ Artist params ++ dquote)%string]
    else queryParts in
  let queryParts :=
    if negb (is_empty (Release params))
    then app queryParts [("release:" ++ dquote ++ Release params ++ dquote)%string]
    else queryParts in
  Join queryParts " AND ".

Definition endpoint_of (query : string) : string :=
  "https://musicbrainz.org/ws/2/recording?query=" ++ QueryEscape query
  ++ "&fmt=json&inc=artists+releases+isrcs".

Definition put_cache (cacheKey : string) (e : cacheEntry) (h : Heap) (st : Store) : Store :=
  {| svc := {| searchCache := <[cacheKey := e]> (searchCache (svc st));
               cacheTTL := cacheTTL (svc st);
               cleaner := cleaner (svc st) |};
     heap := h;
     calls := calls st |}.

(** "Proceed with API call": the part of the function after the cache read. *)
Definition fetch (env : Env) (st : Store) (cacheKey : string) (params : SearchParams)
  : Store * result SearchError (list MusicBrainzRecording) :=
  let endpoint := endpoint_of (build_query params) in
  let st := record_call LimiterWait st in
  match limiter_Wait env with
  | WaitErr true => (st, Err ErrWaitCancelled)
  | WaitErr false => (st, Err ErrRateLimiter)
  | WaitOk =>
      if NewRequest_fails env endpoint then (st, Err ErrCreateRequest) else
      let st := record_call (HttpDo endpoint) st in
      match httpClient_Do env endpoint with
      | DoErr true => (st, Err ErrRequestContext)
      | DoErr false => (st, Err (ErrExecuteRequest endpoint))
      | DoResp StatusCode Body =>
          if negb (StatusCode =? 200) then (st, Err (ErrStatus endpoint StatusCode)) else
          match json_Decode env Body with
          | None => (st, Err (ErrDecode endpoint))
          | Some js =>
              let '(h, Recordings) := alloc_recordings (heap st) js in
              let entry := {| recordings := Recordings;
                              expiresAt := clock_store env + cacheTTL (svc st) |} in
              (put_cache cacheKey entry h st, Ok Recordings)
          end
      end
  end.

(** "Check Cache": the cache read and what follows it. *)
Definition cache_or_fetch (env : Env) (st : Store) (params : SearchParams)
  : Store * result SearchError (list MusicBrainzRecording) :=
  let cacheKey := generateCacheKey params in
  let now := clock_check env in
  match searchCache (svc st) !! cacheKey with
  | Some entry =>
      if now <? expiresAt entry
      then (st, Ok (recordings entry))
      else fetch env st cacheKey params
  | None => fetch env st cacheKey params
  end.

Definition no_parameter (params : SearchParams) : bool :=
  is_empty (Track params) && is_empty (Artist params) && is_empty (Release params).

Definition SearchMusicBrainz (env : Env) (st : Store) (params : SearchParams)
  : Store * result SearchError (list MusicBrainzRecording) :=
  if no_parameter params
  then (st, Err ErrNoParameter)
  else
    let params := clean_params (svc st) params in
    cache_or_fetch env st params.

(** ** HydrateTrack *)

(** Modelled from the spec: the types [models.Artist] and [models.Track] of
    package models, which is not among the sources; the fields are the ones
    [HydrateTrack] reads and writes. *)
Record Artist_ := {
  art_Name : string;
  art_ID : string;
  art_MBID : string
}.

Record Track_ := {
  trk_HasStamped : bool;
  trk_PlayID : Z;
  trk_Name : string;
  trk_URL : string;
  trk_ServiceBaseUrl : string;
  trk_RecordingMBID : string;
  trk_Album : string;
  trk_ReleaseMBID : string;
  trk_ISRC : string;
  trk_Timestamp : Z;
  trk_ProgressMs : Z;
  trk_DurationMs : Z;
  trk_Artist : list Artist_
}.

Inductive HydrateError :=
| SearchFailed (e : SearchError)
| NoResultsFound.

(** Run-time panics of Go. *)
Inductive Panic :=
| IndexOutOfRange
| NilDereference.

Inductive outcome (A : Type) :=
| Returned (a : A)
| Failed (e : HydrateError)
| Panicked (p : Panic).
Arguments Returned {A} a.
Arguments Failed {A} e.
Arguments Panicked {A} p.

Definition set_heap (h : Heap) (st : Store) : Store :=
  {| svc := svc st; heap := h; calls := calls st |}.

Definition HydrateTrack (env : Env) (st : Store) (track : Track_)
  : Store * outcome Track_ :=
  let artistArray := map art_Name (trk_Artist track) in
  let params := {| Track := trk_Name track;
                   Artist := Join artistArray ", ";
                   Release := trk_Album track |} in
  match SearchMusicBrainz env st params with
  | (st, Err err) => (st, Failed (SearchFailed err))
  | (st, Ok res) =>
      match res with
      | [] => (st, Failed NoResultsFound)
      | firstResult :: _ =>
          let '(h, firstResultAlbum) :=
            GetBestRelease (heap st) (rec_Releases firstResult) (rec_Title firstResult) in
          let st := set_heap h st in
          match rec_ISRCs firstResult with
          | [] => (st, Panicked IndexOutOfRange)          (* firstResult.ISRCs[0] *)
          | isrc0 :: _ =>
              let bestISRC := isrc0 in
              let bestISRC :=
                if (length (rec_ISRCs firstResult) =? 0)%nat then trk_ISRC track
                else bestISRC in
              let artists :=
                map (fun a => {| art_Name := ac_Name a;
                                 art_ID := ac_Artist_ID a;
                                 art_MBID := ac_Artist_ID a |})
                    (rec_ArtistCredit firstResult) in
              match firstResultAlbum with
              | None => (st, Panicked NilDereference)     (* firstResultAlbum.Title *)
              | Some album =>
                  (st, Returned
                     {| trk_HasStamped := trk_HasStamped track;
                        trk_PlayID := trk_PlayID track;
                        trk_Name := trk_Name track;
                        trk_URL := trk_URL track;
                        trk_ServiceBaseUrl := trk_ServiceBaseUrl track;
                        trk_RecordingMBID := rec_ID firstResult;
                        trk_Album := rel_Title album;
                        trk_ReleaseMBID := rel_ID album;
                        trk_ISRC := bestISRC;
                        trk_Timestamp := trk_Timestamp track;
                        trk_ProgressMs := trk_ProgressMs track;
                        trk_DurationMs := rec_Length firstResult;
                        trk_Artist := artists |})
              end
          end
      end
  end.

(** ** The release selector of the specification (section 4.4)

    Written from the words of the specification, to be compared with
    [GetBestRelease]: a date is valid when it has at least four bytes;
    releases with a valid date come first, then the order is by date, by
    title and by id; the sort is the textbook stable insertion sort. *)

Section InsertionSort.
Context {A : Type} (before : A -> A -> bool).

(** [x] goes after the elements that come before it and in front of the
    first element that does not. *)
Fixpoint insert_front (x : A) (s : list A) : list A :=
  match s with
  | [] => [x]
  | y :: s' => if before y x then y :: insert_front x s' else x :: s
  end.

Fixpoint insertion_sort (l : list A) : list A :=
  match l with
  | [] => []
  | x :: l' => insert_front x (insertion_sort l')
  end.

(** [x] goes in front of the first element it comes before: the place a
    new last element of the input takes in a stably sorted list. *)
Fixpoint insert_back (x : A) (s : list A) : list A :=
  match s with
  | [] => [x]
  | y :: s' => if before x y then x :: s else y :: insert_back x s'
  end.
End InsertionSort.

Definition valid_date (r : MusicBrainzRelease) : bool :=
  (4 <=? String.length (rel_Date r))%nat.

Definition sorts_before (a b : MusicBrainzRelease) : bool :=
  match valid_date a, valid_date b with
  | true, false => true
  | false, true => false
  | _, _ =>
      match String.compare (rel_Date a) (rel_Date b) with
      | Lt => true
      | Gt => false
      | Eq =>
          match String.compare (rel_Title a) (rel_Title b) with
          | Lt => true
          | Gt => false
          | Eq =>
              match String.compare (rel_ID a) (rel_ID b) with
              | Lt => true
              | _ => false
              end
          end
      end
  end.

Definition selectBestRelease (releases : list MusicBrainzRelease) (recordingTitle : string)
  : option MusicBrainzRelease :=
  let sorted := insertion_sort sorts_before releases in
  let differs r := negb (String.eqb (rel_Title r) recordingTitle) in
  let reference r := String.eqb (rel_Country r) "XW" || String.eqb (rel_Country r) "US" in
  match List.find (fun r => differs r && reference r) sorted with
  | Some r => Some r
  | None =>
      match List.find differs sorted with
      | Some r => Some r
      | None => head sorted
      end
  end.

(** ** Sample data *)

Definition sample_release (id title date country : string) : MusicBrainzRelease :=
  {| rel_ID := id; rel_Title := title; rel_Status := "Official"; rel_Date := date;
     rel_Country := country; rel_Disambiguation := EmptyString; rel_TrackCount := 10 |}.

Definition release_de_2005 := sample_release "a" "Y" "2005" "DE".
Definition release_us_1990 := sample_release "b" "Y" "1990" "US".

Definition plain_cleaner : MetadataCleaner :=
  {| CleanRecording := fun s => (s, None); CleanArtist := fun s => (s, None) |}.

Definition failing_cleaner : MetadataCleaner :=
  {| CleanRecording := fun s => (s, Some "transform failed");
     CleanArtist := fun s => (s, Some "transform failed") |}.

Definition sample_service (c : MetadataCleaner) (cache : gmap string cacheEntry)
  : MusicBrainzService :=
  {| searchCache := cache; cacheTTL := 3600; cleaner := c |}.

Definition empty_store : Store :=
  {| svc := sample_service plain_cleaner ∅; heap := ∅; calls := [] |}.

Definition sample_track : Track_ :=
  {| trk_HasStamped := false; trk_PlayID := 1; trk_Name := "Song";
     trk_URL := "u"; trk_ServiceBaseUrl := "s"; trk_RecordingMBID := EmptyString;
     trk_Album := "Album"; trk_ReleaseMBID := EmptyString; trk_ISRC := "USABC0000001";
     trk_Timestamp := 5; trk_ProgressMs := 6; trk_DurationMs := 7;
     trk_Artist := [ {| art_Name := "Band"; art_ID := "1"; art_MBID := EmptyString |} ] |}.

Definition sample_params : SearchParams :=
  {| Track := "Song"; Artist := "Band"; Release := "Album" |}.

Definition sample_key : string := "track=Song&artist=Band&release=Album".

(** An environment in which the catalogue answers with the given recordings. *)
Definition answering (now : Z) (js : list RecordingJSON) : Env :=
  {| clock_check := now; limiter_Wait := WaitOk;
     NewRequest_fails := fun _ => false;
     httpClient_Do := fun _ => DoResp 200 "{}";
     json_Decode := fun _ => Some js;
     clock_store := now + 1 |}.

(** An environment in which the catalogue answers with status 503. *)
Definition unavailable (now : Z) : Env :=
  {| clock_check := now; limiter_Wait := WaitOk;
     NewRequest_fails := fun _ => false;
     httpClient_Do := fun _ => DoResp 503 EmptyString;
     json_Decode := fun _ => None;
     clock_store := now + 1 |}.

(** A candidate without ISRC, with two releases. *)
Definition candidate_without_isrc : RecordingJSON :=
  {| j_ID := "rec-1"; j_Title := "Song"; j_Length := 1000; j_ISRCs := [];
     j_ArtistCredit := []; j_Releases := [release_de_2005; release_us_1990] |}.

(** A candidate with an ISRC and no release. *)
Definition candidate_without_release : RecordingJSON :=
  {| j_ID := "rec-2"; j_Title := "Song"; j_Length := 1000; j_ISRCs := ["GBXYZ0000002"];
     j_ArtistCredit := []; j_Releases := [] |}.

(** A store whose cache holds one entry for [sample_key], expiring at 100,
    with one recording that has the two sample releases at address 0. *)
Definition cached_recording : MusicBrainzRecording :=
  {| rec_ID := "rec-3"; rec_Title := "Song"; rec_Length := 1000;
     rec_ISRCs := ["GBXYZ0000003"]; rec_ArtistCredit := []; rec_Releases := 0%nat |}.

Definition cached_entry : cacheEntry :=
  {| recordings := [cached_recording]; expiresAt := 100 |}.

Definition warm_store : Store :=
  {| svc := sample_service plain_cleaner {[ sample_key := cached_entry ]};
     heap := {[ 0%nat := [release_de_2005; release_us_1990] ]};
     calls := [] |}.

(** A release cleaner that drops a trailing remaster note. *)
Definition strip_remaster (s : string) : string :=
  if String.eqb s "Album (Remastered)" then "Album" else s.

(** ** Notions used by the properties *)

(** The fetch succeeds end to end: the limiter admits the call, the request
    is created and sent, the status is 200 and the body decodes to [js]. *)
Definition fetch_succeeds (env : Env) (endpoint : string) (js : list RecordingJSON) : Prop :=
  limiter_Wait env = WaitOk /\
  NewRequest_fails env endpoint = false /\
  exists Body, httpClient_Do env endpoint = DoResp 200 Body /\ json_Decode env Body = Some js.

(** The store without the cache entry of a key. *)
Definition drop_entry (cacheKey : string) (st : Store) : Store :=
  {| svc := {| searchCache := delete cacheKey (searchCache (svc st));
               cacheTTL := cacheTTL (svc st);
               cleaner := cleaner (svc st) |};
     heap := heap st;
     calls := calls st |}.

(** The store with another cleaner. *)
Definition with_cleaner (c : MetadataCleaner) (st : Store) : Store :=
  {| svc := {| searchCache := searchCache (svc st);
               cacheTTL := cacheTTL (svc st);
               cleaner := c |};
     heap := heap st;
     calls := calls st |}.

(** The cleaner that returns the same strings and never an error. *)
Definition silence (c : MetadataCleaner) : MetadataCleaner :=
  {| CleanRecording := fun s => (fst (CleanRecording c s), None);
     CleanArtist := fun s => (fst (CleanArtist c s), None) |}.

(** The parameters after the cleaning of the track and of the artist. *)
Definition cleaned (st : Store) (params : SearchParams) : SearchParams :=
  {| Track := fst (CleanRecording (cleaner (svc st)) (Track params));
     Artist := fst (CleanArtist (cleaner (svc st)) (Artist params));
     Release := Release params |}.

(** The parameters with the release cleaned too, by a cleaner of releases. *)
Definition cleaned_with (clean_release : string -> string) (st : Store)
  (params : SearchParams) : SearchParams :=
  {| Track := fst (CleanRecording (cleaner (svc st)) (Track params));
     Artist := fst (CleanArtist (cleaner (svc st)) (Artist params));
     Release := clean_release (Release params) |}.

(** No byte of the string is the separator [&]. *)
Fixpoint no_ampersand (s : string) : bool :=
  match s with
  | EmptyString => true
  | String c s' => negb (Ascii.eqb c "&") && no_ampersand s'
  end.

(** The value of a hexadecimal digit. *)
Definition unhex (c : ascii) : option N :=
  if in_range "0" "9" c then Some (N_of_ascii c - 48)%N
  else if in_range "A" "F" c then Some (N_of_ascii c - 55)%N
  else None.

(** An inverse of [QueryEscape], by which its injectivity is proved. *)
Fixpoint unescape (s : string) : option string :=
  match s with
  | EmptyString => Some EmptyString
  | String c rest =>
      if Ascii.eqb c "%" then
        match rest with
        | String hi (String lo rest') =>
            match unhex hi, unhex lo with
            | Some a, Some b =>
                option_map (String (ascii_of_N (16 * a + b))) (unescape rest')
            | _, _ => None
            end
        | _ => None
        end
      else if Ascii.eqb c "+" then option_map (String " ") (unescape rest)
      else option_map (String c) (unescape rest)
  end.

(** Three-way comparisons and their lexicographic product, by which the
    order of the releases is shown to be a strict weak order. *)
Definition lex {A : Type} (c1 c2 : A -> A -> comparison) (a b : A) : comparison :=
  match c1 a b with
  | Eq => c2 a b
  | r => r
  end.

Definition is_Lt (c : comparison) : bool :=
  match c with Lt => true | _ => false end.

Record total_cmp {A : Type} (c : A -> A -> comparison) : Prop := {
  cmp_antisym : forall a b, c a b = CompOpp (c b a);
  cmp_trans : forall a b d, c a b = Lt -> c b d = Lt -> c a d = Lt;
  cmp_eq_l : forall a b d, c a b = Eq -> c a d = c b d
}.

Definition validity_cmp (a b : MusicBrainzRelease) : comparison :=
  match valid_date a, valid_date b with
  | true, false => Lt
  | false, true => Gt
  | _, _ => Eq
  end.

Definition by_field (f : MusicBrainzRelease -> string) (a b : MusicBrainzRelease)
  : comparison :=
  String.compare (f a) (f b).

Definition release_cmp : MusicBrainzRelease -> MusicBrainzRelease -> comparison :=
  lex validity_cmp (lex (by_field rel_Date) (lex (by_field rel_Title) (by_field rel_ID))).

(** A list in which no element is less than an earlier one. *)
Definition sorted_by {A : Type} (less : A -> A -> bool) (l : list A) : Prop :=
  StronglySorted (fun a b => less b a = false) l.

(** ** Notions used by the further properties *)

(** The store after the wait on the limiter, and after the request. *)
Definition waited (st : Store) : Store := record_call LimiterWait st.

Definition requested (endpoint : string) (st : Store) : Store :=
  record_call (HttpDo endpoint) (record_call LimiterWait st).

(** The entry the cache read trusts: present and not yet expired. *)
Definition trusted (env : Env) (st : Store) (cacheKey : string) : option cacheEntry :=
  match searchCache (svc st) !! cacheKey with
  | Some entry => if clock_check env <? expiresAt entry then Some entry else None
  | None => None
  end.

(** An environment in which the catalogue answers 204 No Content. *)
Definition no_content : Env :=
  {| clock_check := 0; limiter_Wait := WaitOk;
     NewRequest_fails := fun _ => false;
     httpClient_Do := fun _ => DoResp 204 EmptyString;
     json_Decode := fun _ => Some [];
     clock_store := 1 |}.

(** The recording [r] carries what the decoder read in [j], its releases being
    the array of its slice in the heap [h]. *)
Definition decoded_as (h : Heap) (j : RecordingJSON) (r : MusicBrainzRecording) : Prop :=
  rec_ID r = j_ID j /\ rec_Title r = j_Title j /\ rec_Length r = j_Length j /\
  rec_ISRCs r = j_ISRCs j /\ rec_ArtistCredit r = j_ArtistCredit j /\
  h !! rec_Releases r = Some (j_Releases j).

(** The three scans over the sorted releases. *)
Definition scan (trackTitle : string) (sorted : list MusicBrainzRelease)
  : option MusicBrainzRelease :=
  match List.find (preferred trackTitle) sorted with
  | Some release => Some release
  | None =>
      match List.find (other_title trackTitle) sorted with
      | Some release => Some release
      | None => head sorted
      end
  end.

(** The rank of a release in the preference of the selector: 0 for another
    title and a country XW or US, 1 for another title, 2 for the title of
    the recording. *)
Definition tier (trackTitle : string) (r : MusicBrainzRelease) : nat :=
  if preferred trackTitle r then 0%nat
  else if other_title trackTitle r then 1%nat
  else 2%nat.

(** Releases that the order of the sort does not tell apart. *)
Definition same_key (a b : MusicBrainzRelease) : bool :=
  String.eqb (rel_Date a) (rel_Date b) && String.eqb (rel_Title a) (rel_Title b)
  && String.eqb (rel_ID a) (rel_ID b).

(** The parameters [HydrateTrack] searches with. *)
Definition hydrate_params (track : Track_) : SearchParams :=
  {| Track := trk_Name track;
     Artist := Join (map art_Name (trk_Artist track)) ", ";
     Release := trk_Album track |}.

(** The artists built from the credits of a recording. *)
Definition credited_artists (r : MusicBrainzRecording) : list Artist_ :=
  map (fun a => {| art_Name := ac_Name a; art_ID := ac_Artist_ID a;
                   art_MBID := ac_Artist_ID a |})
      (rec_ArtistCredit r).

(** The track returned for [sample_track] from the warm cache. *)
Definition sample_enriched : Track_ :=
  {| trk_HasStamped := false; trk_PlayID := 1; trk_Name := "Song";
     trk_URL := "u"; trk_ServiceBaseUrl := "s"; trk_RecordingMBID := "rec-3";
     trk_Album := "Y"; trk_ReleaseMBID := "b"; trk_ISRC := "GBXYZ0000003";
     trk_Timestamp := 5; trk_ProgressMs := 6; trk_DurationMs := 1000;
     trk_Artist := [] |}.

(** A track without name and album, by two artists without name. *)
Definition nameless_track : Track_ :=
  {| trk_HasStamped := false; trk_PlayID := 2; trk_Name := EmptyString;
     trk_URL := "u"; trk_ServiceBaseUrl := "s"; trk_RecordingMBID := EmptyString;
     trk_Album := EmptyString; trk_ReleaseMBID := EmptyString; trk_ISRC := EmptyString;
     trk_Timestamp := 5; trk_ProgressMs := 6; trk_DurationMs := 7;
     trk_Artist := [ {| art_Name := EmptyString; art_ID := "1"; art_MBID := EmptyString |};
                     {| art_Name := EmptyString; art_ID := "2"; art_MBID := EmptyString |} ] |}.

(** A candidate with an ISRC and two releases. *)
Definition candidate_complete : RecordingJSON :=
  {| j_ID := "rec-4"; j_Title := "Song"; j_Length := 1000; j_ISRCs := ["GBXYZ0000004"];
     j_ArtistCredit := []; j_Releases := [release_de_2005; release_us_1990] |}.

(** Every byte of the string passes the test. *)
Fixpoint all_bytes (p : ascii -> bool) (s : string) : bool :=
  match s with
  | EmptyString => true
  | String c s' => p c && all_bytes p s'
  end.

(** The bytes [QueryEscape] writes: the ones it keeps, [+] and [%]. *)
Definition url_safe (c : ascii) : bool :=
  negb (shouldEscape c) || Ascii.eqb c "+" || Ascii.eqb c "%".

(** ** NewMusicBrainzService

    The service starts with an empty cache and a time-to-live of one hour, a
    [time.Duration] being a number of nanoseconds.  The cleaner is built
    outside this file and is taken as it comes; the limiter (one request per
    second, burst of one) and the HTTP client (time-out of ten seconds) act
    through the environment of each call, and the database handle is not
    used by this file. *)
Definition Hour : Z := 3600000000000.

Definition NewMusicBrainzService (c : MetadataCleaner) : MusicBrainzService :=
  let defaultCacheTTL := 1 * Hour in
  {| searchCache := ∅; cacheTTL := defaultCacheTTL; cleaner := c |}.

(** A cleaner that keeps nothing. *)
Definition erasing_cleaner : MetadataCleaner :=
  {| CleanRecording := fun _ => (EmptyString, None);
     CleanArtist := fun _ => (EmptyString, None) |}.

(** ** Properties *)

Example generateCacheKey_ex :
  generateCacheKey {| Track := "a b&c"; Artist := "x=y"; Release := EmptyString |}
  = "track=a+b%26c&artist=x%3Dy&release=".
Proof. reflexivity. Qed.

(** *** Hydration: the ISRC and the release of the first candidate *)

Lemma HydrateTrack_no_isrc env st track st1 r rest :
  SearchMusicBrainz env st
    {| Track := trk_Name track;
       Artist := Join (map art_Name (trk_Artist track)) ", ";
       Release := trk_Album track |} = (st1, Ok (r :: rest)) ->
  rec_ISRCs r = [] ->
  snd (HydrateTrack env st track) = Panicked IndexOutOfRange.
Proof.
  intros Hs Hi. unfold HydrateTrack. rewrite Hs.
  destruct (GetBestRelease _ _ _) as [h alb]. now rewrite Hi.
Qed.

Lemma HydrateTrack_no_release env st track st1 r rest :
  SearchMusicBrainz env st
    {| Track := trk_Name track;
       Artist := Join (map art_Name (trk_Artist track)) ", ";
       Release := trk_Album track |} = (st1, Ok (r :: rest)) ->
  slice_elems (heap st1) (rec_Releases r) = [] ->
  exists p, snd (HydrateTrack env st track) = Panicked p.
Proof.
  intros Hs Hr. unfold HydrateTrack. rewrite Hs.
  unfold GetBestRelease. rewrite Hr.
  destruct (rec_ISRCs r); eauto.
Qed.

Lemma HydrateTrack_isrc env st track st1 r rest i others t :
  SearchMusicBrainz env st
    {| Track := trk_Name track;
       Artist := Join (map art_Name (trk_Artist track)) ", ";
       Release := trk_Album track |} = (st1, Ok (r :: rest)) ->
  rec_ISRCs r = i :: others ->
  snd (HydrateTrack env st track) = Returned t ->
  trk_ISRC t = i.
Proof.
  intros Hs Hi. unfold HydrateTrack. rewrite Hs.
  destruct (GetBestRelease _ _ _) as [h alb]. rewrite Hi.
  destruct alb; simpl; [|discriminate].
  intros [= <-]. reflexivity.
Qed.

(** C1: the first candidate has no ISRC (and two releases); the claim asks for
    the ISRC of the input track, the code stops with an index out of range at
    [firstResult.ISRCs[0]], before its own test of the length. *)
Theorem C1_HydrateTrack_without_isrc_panics :
  snd (HydrateTrack (answering 0 [candidate_without_isrc]) empty_store sample_track)
  = Panicked IndexOutOfRange.
Proof. vm_compute. reflexivity. Qed.

(** C2: the first candidate has an ISRC and an empty release list; the claim
    asks for a MissingRelease error, the code stops with a nil dereference at
    [firstResultAlbum.Title]. *)
Theorem C2_HydrateTrack_without_release_panics :
  snd (HydrateTrack (answering 0 [candidate_without_release]) empty_store sample_track)
  = Panicked NilDereference.
Proof. vm_compute. reflexivity. Qed.

(** *** Search: the cache and the fetch *)

Lemma fetch_cases env st cacheKey params :
  let endpoint := endpoint_of (build_query params) in
  (exists js, fetch_succeeds env endpoint js /\
     exists h recs, fetch env st cacheKey params =
       (put_cache cacheKey {| recordings := recs;
                              expiresAt := clock_store env + cacheTTL (svc st) |} h
          (record_call (HttpDo endpoint) (record_call LimiterWait st)), Ok recs))
  \/
  ((forall js, ~ fetch_succeeds env endpoint js) /\
     exists e, snd (fetch env st cacheKey params) = Err e /\
       svc (fst (fetch env st cacheKey params)) = svc st /\
       heap (fst (fetch env st cacheKey params)) = heap st).
Proof.
  intros endpoint. unfold fetch. fold endpoint.
  destruct (limiter_Wait env) as [|ctx] eqn:Hw.
  2:{ right. split.
      - intros js (Hok & _). congruence.
      - destruct ctx; eauto. }
  destruct (NewRequest_fails env endpoint) eqn:Hn.
  { right. split.
    - intros js (_ & Hf & _). congruence.
    - eauto. }
  destruct (httpClient_Do env endpoint) as [ctx|code body] eqn:Hd.
  { right. split.
    - intros js (_ & _ & b & Hb & _). congruence.
    - destruct ctx; eauto. }
  destruct (code =? 200) eqn:Hc; simpl.
  2:{ right. split.
      - intros js (_ & _ & b & Hb & _). rewrite Hd in Hb.
        injection Hb as -> ->. discriminate.
      - eauto. }
  apply Z.eqb_eq in Hc. subst code.
  destruct (json_Decode env body) as [js|] eqn:Hj.
  2:{ right. split.
      - intros js (_ & _ & b & Hb & Hjs). rewrite Hd in Hb.
        injection Hb as ->. congruence.
      - eauto. }
  left. exists js. split.
  - repeat split; eauto.
  - simpl. destruct (alloc_recordings (heap st) js) as [h recs]. eauto.
Qed.

Lemma fetch_calls env st cacheKey params :
  exists rest, calls (fst (fetch env st cacheKey params)) = (calls st ++ LimiterWait :: rest)%list.
Proof.
  unfold fetch.
  destruct (limiter_Wait env) as [|[]]; try (exists []; reflexivity).
  destruct (NewRequest_fails env _); try (exists []; reflexivity).
  exists [HttpDo (endpoint_of (build_query params))].
  assert (Hc : forall c d l, calls (record_call d (record_call c l))
                             = (calls l ++ [c; d])%list).
  { intros. simpl. now rewrite <- app_assoc. }
  destruct (httpClient_Do env _) as [[]|code body]; try apply Hc.
  destruct (negb (code =? 200)); try apply Hc.
  destruct (json_Decode env body); try apply Hc.
  destruct (alloc_recordings _ _). apply Hc.
Qed.

Lemma SearchMusicBrainz_valid env st params :
  no_parameter params = false ->
  SearchMusicBrainz env st params = cache_or_fetch env st (cleaned st params).
Proof. intros Hv. unfold SearchMusicBrainz. now rewrite Hv. Qed.

(** C6: for valid parameters, a search that returns an error leaves the
    service (the cache of every key) and the heap as they were; the service
    changes only when the fetch succeeds end to end; and without a trusted
    entry, a fetch that does not succeed end to end makes the search return an
    error. *)
Theorem C6_failures_are_not_cached (env : Env) (st : Store) (params : SearchParams) :
  no_parameter params = false ->
  let endpoint := endpoint_of (build_query (cleaned st params)) in
  let cacheKey := generateCacheKey (cleaned st params) in
  let st' := fst (SearchMusicBrainz env st params) in
  let r := snd (SearchMusicBrainz env st params) in
  (forall e, r = Err e ->
     searchCache (svc st') = searchCache (svc st) /\ heap st' = heap st) /\
  (searchCache (svc st') <> searchCache (svc st) ->
     exists js, fetch_succeeds env endpoint js) /\
  ((forall entry, searchCache (svc st) !! cacheKey = Some entry ->
      expiresAt entry <= clock_check env) ->
   (forall js, ~ fetch_succeeds env endpoint js) ->
   exists e, r = Err e).
Proof.
  intros Hv endpoint cacheKey st' r.
  subst st' r. rewrite (SearchMusicBrainz_valid _ _ _ Hv).
  unfold cache_or_fetch. fold cacheKey.
  pose proof (fetch_cases env st cacheKey (cleaned st params)) as Hf.
  cbv zeta in Hf. fold endpoint in Hf.
  assert (Hfetch :
    let st' := fst (fetch env st cacheKey (cleaned st params)) in
    let r := snd (fetch env st cacheKey (cleaned st params)) in
    (forall e, r = Err e ->
       searchCache (svc st') = searchCache (svc st) /\ heap st' = heap st) /\
    (searchCache (svc st') <> searchCache (svc st) ->
       exists js, fetch_succeeds env endpoint js) /\
    ((forall js, ~ fetch_succeeds env endpoint js) -> exists e, r = Err e)).
  { cbv zeta.
    destruct Hf as [(js & Hok & h & recs & Hr) | (Hno & e & Hr & Hs & Hh)].
    - rewrite Hr. simpl. repeat split; try discriminate; eauto.
      intros Hn. destruct (Hn js Hok).
    - rewrite Hr, Hs, Hh. repeat split; eauto. congruence. }
  cbv zeta in Hfetch. destruct Hfetch as (H1 & H2 & H3).
  destruct (searchCache (svc st) !! cacheKey) as [entry|] eqn:Hl.
  - destruct (clock_check env <? expiresAt entry) eqn:Hlt; simpl.
    + repeat split; try discriminate; try congruence.
      intros He _. specialize (He entry eq_refl). lia.
    + split; [exact H1 | split; [exact H2 | intros _; exact H3]].
  - split; [exact H1 | split; [exact H2 | intros _; exact H3]].
Qed.

(** An expired entry and a catalogue that answers 503: the search fails. *)
Lemma C6_witness :
  exists e, snd (SearchMusicBrainz (unavailable 200) warm_store sample_params) = Err e.
Proof.
  apply (C6_failures_are_not_cached (unavailable 200) warm_store sample_params eq_refl).
  - intros entry. vm_compute. intros [= <-]. discriminate.
  - intros js (_ & _ & b & Hb & _). vm_compute in Hb. discriminate.
Defined.

Lemma fetch_cache_irrelevant env st1 st2 cacheKey params :
  heap st1 = heap st2 -> calls st1 = calls st2 ->
  cacheTTL (svc st1) = cacheTTL (svc st2) ->
  snd (fetch env st1 cacheKey params) = snd (fetch env st2 cacheKey params) /\
  heap (fst (fetch env st1 cacheKey params)) = heap (fst (fetch env st2 cacheKey params)) /\
  calls (fst (fetch env st1 cacheKey params)) = calls (fst (fetch env st2 cacheKey params)) /\
  (searchCache (svc st1) = searchCache (svc st2) ->
   searchCache (svc (fst (fetch env st1 cacheKey params)))
   = searchCache (svc (fst (fetch env st2 cacheKey params)))).
Proof.
  intros Hh Hc Ht. unfold fetch.
  destruct (limiter_Wait env) as [|[]]; simpl; try (rewrite Hh, Hc; now auto).
  destruct (NewRequest_fails env _); simpl; try (rewrite Hh, Hc; now auto).
  destruct (httpClient_Do env _) as [[]|code body]; simpl; try (rewrite Hh, Hc; now auto).
  destruct (negb (code =? 200)); simpl; try (rewrite Hh, Hc; now auto).
  destruct (json_Decode env body); simpl; try (rewrite Hh, Hc; now auto).
  rewrite Hh. destruct (alloc_recordings (heap st2) l) as [h recs]; simpl.
  rewrite Hc, Ht. repeat split; auto. intros ->. reflexivity.
Qed.

(** C7: for valid parameters whose fingerprint has a cache entry, if the
    clock is strictly before [expiresAt] the search returns the recordings of
    the entry and leaves the store as it is (no call to the limiter or to the
    network is recorded); if [expiresAt] is at or before the clock the search
    is the fetch path (its first call is the wait on the limiter), with the
    result, the heap and the calls it has when the entry is absent. *)
Theorem C7_cache_hit_and_expiry (env : Env) (st : Store) (params : SearchParams)
    (entry : cacheEntry) :
  no_parameter params = false ->
  searchCache (svc st) !! generateCacheKey (cleaned st params) = Some entry ->
  let cacheKey := generateCacheKey (cleaned st params) in
  (clock_check env < expiresAt entry ->
     SearchMusicBrainz env st params = (st, Ok (recordings entry))) /\
  (expiresAt entry <= clock_check env ->
     SearchMusicBrainz env st params = fetch env st cacheKey (cleaned st params) /\
     SearchMusicBrainz env (drop_entry cacheKey st) params
       = fetch env (drop_entry cacheKey st) cacheKey (cleaned st params) /\
     snd (SearchMusicBrainz env st params)
       = snd (SearchMusicBrainz env (drop_entry cacheKey st) params) /\
     heap (fst (SearchMusicBrainz env st params))
       = heap (fst (SearchMusicBrainz env (drop_entry cacheKey st) params)) /\
     calls (fst (SearchMusicBrainz env st params))
       = calls (fst (SearchMusicBrainz env (drop_entry cacheKey st) params)) /\
     exists rest,
       calls (fst (SearchMusicBrainz env st params)) = (calls st ++ LimiterWait :: rest)%list).
Proof.
  intros Hv Hl cacheKey. fold cacheKey in Hl. split.
  - intros Hlt. apply Z.ltb_lt in Hlt.
    rewrite (SearchMusicBrainz_valid _ _ _ Hv).
    unfold cache_or_fetch. fold cacheKey. now rewrite Hl, Hlt.
  - intros Hge. apply Z.ltb_ge in Hge.
    assert (Hs : SearchMusicBrainz env st params
                 = fetch env st cacheKey (cleaned st params)).
    { rewrite (SearchMusicBrainz_valid _ _ _ Hv).
      unfold cache_or_fetch. fold cacheKey. now rewrite Hl, Hge. }
    assert (Hd : SearchMusicBrainz env (drop_entry cacheKey st) params
                 = fetch env (drop_entry cacheKey st) cacheKey (cleaned st params)).
    { rewrite (SearchMusicBrainz_valid _ _ _ Hv).
      change (cleaned (drop_entry cacheKey st) params) with (cleaned st params).
      unfold cache_or_fetch. fold cacheKey. simpl.
      now rewrite lookup_delete_eq. }
    rewrite Hs, Hd.
    destruct (fetch_cache_irrelevant env st (drop_entry cacheKey st) cacheKey
                (cleaned st params) eq_refl eq_refl eq_refl) as (H1 & H2 & H3 & _).
    repeat split; auto. apply fetch_calls.
Qed.

(** The entry expires at 100: served from the cache at 99, fetched at 100. *)
Lemma C7_witness :
  SearchMusicBrainz (unavailable 99) warm_store sample_params
    = (warm_store, Ok [cached_recording]) /\
  exists rest,
    calls (fst (SearchMusicBrainz (unavailable 100) warm_store sample_params))
    = LimiterWait :: rest.
Proof.
  split.
  - apply (C7_cache_hit_and_expiry (unavailable 99) warm_store sample_params
             cached_entry eq_refl eq_refl). reflexivity.
  - apply (C7_cache_hit_and_expiry (unavailable 100) warm_store sample_params
             cached_entry eq_refl eq_refl). simpl. lia.
Defined.

(** C10: the search does not depend on the errors the cleaner reports: with
    the cleaner that returns the same strings and never an error, the result,
    the cache, the heap and the calls are the same; the strings the cleaner
    returned are the ones the search goes on with. *)
Theorem C10_cleaner_errors_are_discarded (env : Env) (st : Store) (c : MetadataCleaner)
    (params : SearchParams) :
  let loud := SearchMusicBrainz env (with_cleaner c st) params in
  let quiet := SearchMusicBrainz env (with_cleaner (silence c) st) params in
  snd loud = snd quiet /\
  searchCache (svc (fst loud)) = searchCache (svc (fst quiet)) /\
  heap (fst loud) = heap (fst quiet) /\
  calls (fst loud) = calls (fst quiet) /\
  (no_parameter params = false ->
   loud = cache_or_fetch env (with_cleaner c st)
            {| Track := fst (CleanRecording c (Track params));
               Artist := fst (CleanArtist c (Artist params));
               Release := Release params |}).
Proof.
  cbv zeta. unfold SearchMusicBrainz.
  destruct (no_parameter params); [repeat split; auto; discriminate|].
  change (clean_params (svc (with_cleaner (silence c) st)) params)
    with (clean_params (svc (with_cleaner c st)) params).
  unfold cache_or_fetch. simpl searchCache.
  destruct (searchCache (svc st) !! _) as [entry|].
  - destruct (clock_check env <? expiresAt entry).
    + repeat split; auto.
    + destruct (fetch_cache_irrelevant env (with_cleaner c st)
                  (with_cleaner (silence c) st)
                  (generateCacheKey (clean_params (svc (with_cleaner c st)) params))
                  (clean_params (svc (with_cleaner c st)) params)
                  eq_refl eq_refl eq_refl) as (H1 & H2 & H3 & H4).
      repeat split; auto.
  - destruct (fetch_cache_irrelevant env (with_cleaner c st)
                (with_cleaner (silence c) st)
                (generateCacheKey (clean_params (svc (with_cleaner c st)) params))
                (clean_params (svc (with_cleaner c st)) params)
                eq_refl eq_refl eq_refl) as (H1 & H2 & H3 & H4).
    repeat split; auto.
Qed.

(** A cleaner that always reports an error, against the same one silenced. *)
Lemma C10_witness :
  snd (SearchMusicBrainz (answering 0 [candidate_without_release])
         (with_cleaner failing_cleaner empty_store) sample_params)
  = snd (SearchMusicBrainz (answering 0 [candidate_without_release])
         (with_cleaner (silence failing_cleaner) empty_store) sample_params).
Proof.
  apply (proj1 (C10_cleaner_errors_are_discarded
                  (answering 0 [candidate_without_release]) empty_store
                  failing_cleaner sample_params)).
Defined.

Example failing_cleaner_is_silent :
  snd (SearchMusicBrainz (answering 0 [candidate_without_release])
         (with_cleaner failing_cleaner empty_store) sample_params)
  = snd (SearchMusicBrainz (answering 0 [candidate_without_release])
         empty_store sample_params).
Proof. vm_compute. reflexivity. Qed.

(** C3, as claimed, fails: with a cleaner of releases that drops the
    remaster note, the search of a release carrying that note is not the
    cache read and fetch of the parameters with the release cleaned (the
    request sent names the release as given). *)
Lemma C3_release_is_not_cleaned :
  let params := {| Track := "Song"; Artist := "Band"; Release := "Album (Remastered)" |} in
  SearchMusicBrainz (unavailable 0) empty_store params
  <> cache_or_fetch (unavailable 0) empty_store
       (cleaned_with strip_remaster empty_store params).
Proof.
  cbv zeta. intros H.
  apply (f_equal (fun r => calls (fst r))) in H.
  vm_compute in H. discriminate.
Qed.

Lemma fetch_success env st cacheKey params js :
  fetch_succeeds env (endpoint_of (build_query params)) js ->
  fetch env st cacheKey params
  = (put_cache cacheKey
       {| recordings := snd (alloc_recordings (heap st) js);
          expiresAt := clock_store env + cacheTTL (svc st) |}
       (fst (alloc_recordings (heap st) js))
       (record_call (HttpDo (endpoint_of (build_query params)))
          (record_call LimiterWait st)),
     Ok (snd (alloc_recordings (heap st) js))).
Proof.
  intros (Hw & Hn & body & Hd & Hj). unfold fetch.
  rewrite Hw, Hn, Hd. simpl. rewrite Hj. simpl.
  now destruct (alloc_recordings (heap st) js).
Qed.

(** C3, amended: for valid parameters the search is the cache read and the
    fetch of the parameters whose track and artist are the strings returned
    by the cleaner and whose release is the one given.  A trusted entry under
    the fingerprint of these parameters is the answer; without one, a fetch
    that succeeds sends the query of these parameters (after the wait on the
    limiter) and stores its recordings under their fingerprint. *)
Theorem C3_track_and_artist_are_cleaned (env : Env) (st : Store) (params : SearchParams) :
  no_parameter params = false ->
  let normalized :=
    {| Track := fst (CleanRecording (cleaner (svc st)) (Track params));
       Artist := fst (CleanArtist (cleaner (svc st)) (Artist params));
       Release := Release params |} in
  let cacheKey := generateCacheKey normalized in
  let endpoint := endpoint_of (build_query normalized) in
  let st' := fst (SearchMusicBrainz env st params) in
  let r := snd (SearchMusicBrainz env st params) in
  SearchMusicBrainz env st params = cache_or_fetch env st normalized /\
  (forall entry, searchCache (svc st) !! cacheKey = Some entry ->
     clock_check env < expiresAt entry -> r = Ok (recordings entry)) /\
  (forall js,
     (forall entry, searchCache (svc st) !! cacheKey = Some entry ->
        expiresAt entry <= clock_check env) ->
     fetch_succeeds env endpoint js ->
     exists recs,
       r = Ok recs /\
       searchCache (svc st') !! cacheKey
         = Some {| recordings := recs;
                   expiresAt := clock_store env + cacheTTL (svc st) |} /\
       calls st' = (calls st ++ [LimiterWait; HttpDo endpoint])%list).
Proof.
  intros Hv normalized cacheKey endpoint st' r.
  pose proof (SearchMusicBrainz_valid env st params Hv) as Hs.
  change (cleaned st params) with normalized in Hs.
  split; [exact Hs|]. subst st' r. rewrite Hs. unfold cache_or_fetch.
  fold cacheKey. split.
  - intros entry -> Hlt. apply Z.ltb_lt in Hlt. now rewrite Hlt.
  - intros js Hold Hok.
    assert (Hf : match searchCache (svc st) !! cacheKey with
                 | Some entry =>
                     if clock_check env <? expiresAt entry
                     then (st, Ok (recordings entry))
                     else fetch env st cacheKey normalized
                 | None => fetch env st cacheKey normalized
                 end = fetch env st cacheKey normalized).
    { destruct (searchCache (svc st) !! cacheKey) as [entry|]; [|reflexivity].
      specialize (Hold entry eq_refl). apply Z.ltb_ge in Hold. now rewrite Hold. }
    rewrite Hf, (fetch_success _ _ _ _ _ Hok). simpl.
    eexists. split; [reflexivity|]. split.
    + now rewrite lookup_insert_eq.
    + now rewrite <- app_assoc.
Qed.

(** The release with its remaster note is the one looked up and queried. *)
Lemma C3_witness :
  SearchMusicBrainz (unavailable 0) empty_store
    {| Track := "Song"; Artist := "Band"; Release := "Album (Remastered)" |}
  = cache_or_fetch (unavailable 0) empty_store
      {| Track := "Song"; Artist := "Band"; Release := "Album (Remastered)" |}.
Proof.
  apply (proj1 (C3_track_and_artist_are_cleaned (unavailable 0) empty_store
           {| Track := "Song"; Artist := "Band"; Release := "Album (Remastered)" |}
           eq_refl)).
Defined.

(** *** The release selector *)

(** C9: for the empty release list the selector returns none, and for a list
    of one release it returns that release, whatever its fields and the
    recording title; the heap is left as it is. *)
Theorem C9_GetBestRelease_empty_and_single (h : Heap) (releases : loc) (trackTitle : string) :
  (slice_elems h releases = [] -> GetBestRelease h releases trackTitle = (h, None)) /\
  (forall R, slice_elems h releases = [R] ->
             GetBestRelease h releases trackTitle = (h, Some R)).
Proof.
  unfold GetBestRelease. split.
  - intros ->. reflexivity.
  - intros R ->. reflexivity.
Qed.

(** The empty list, and a single release whose title is the recording title. *)
Lemma C9_witness :
  GetBestRelease ∅ 0%nat "Song" = (∅, None) /\
  GetBestRelease {[ 0%nat := [release_de_2005] ]} 0%nat "Y"
  = ({[ 0%nat := [release_de_2005] ]}, Some release_de_2005).
Proof.
  split.
  - apply (proj1 (C9_GetBestRelease_empty_and_single ∅ 0%nat "Song")). reflexivity.
  - apply (proj2 (C9_GetBestRelease_empty_and_single
                    {[ 0%nat := [release_de_2005] ]} 0%nat "Y")). reflexivity.
Defined.

(** *** The fingerprint *)

Ltac each_byte c := destruct c as [[] [] [] [] [] [] [] []].

Lemma unescape_escape_byte (c : ascii) (s : string) :
  unescape (escape_byte c ++ s) = option_map (String c) (unescape s).
Proof. each_byte c; reflexivity. Qed.

Lemma unescape_QueryEscape (s : string) : unescape (QueryEscape s) = Some s.
Proof.
  induction s as [|c s IH]; simpl; [reflexivity|].
  now rewrite unescape_escape_byte, IH.
Qed.

Lemma QueryEscape_inj (s t : string) : QueryEscape s = QueryEscape t -> s = t.
Proof.
  intros H. apply (f_equal unescape) in H.
  rewrite !unescape_QueryEscape in H. now injection H.
Qed.

Lemma no_ampersand_app (s t : string) :
  no_ampersand (s ++ t) = no_ampersand s && no_ampersand t.
Proof.
  induction s as [|c s IH]; simpl; [reflexivity|].
  now rewrite IH, andb_assoc.
Qed.

Lemma no_ampersand_escape_byte (c : ascii) : no_ampersand (escape_byte c) = true.
Proof. each_byte c; reflexivity. Qed.

Lemma no_ampersand_QueryEscape (s : string) : no_ampersand (QueryEscape s) = true.
Proof.
  induction s as [|c s IH]; simpl; [reflexivity|].
  now rewrite no_ampersand_app, no_ampersand_escape_byte, IH.
Qed.

(** Two strings cut at their first [&] agree on both sides of it. *)
Lemma cut_at_ampersand (u u' v v' : string) :
  no_ampersand u = true -> no_ampersand u' = true ->
  u ++ String "&" v = u' ++ String "&" v' -> u = u' /\ v = v'.
Proof.
  revert u'. induction u as [|c u IH]; intros [|c' u']; simpl; intros Hu Hu' H.
  - injection H as <-. auto.
  - injection H as <- _. simpl in Hu'. discriminate.
  - injection H as -> _. simpl in Hu. discriminate.
  - injection H as <- H.
    apply andb_prop in Hu as [_ Hu]. apply andb_prop in Hu' as [_ Hu'].
    destruct (IH u' Hu Hu' H) as [-> ->]. auto.
Qed.

Lemma generateCacheKey_inj (p q : SearchParams) :
  generateCacheKey p = generateCacheKey q -> p = q.
Proof.
  destruct p as [t a r], q as [t' a' r']. unfold generateCacheKey. simpl.
  intros H. injection H as H.
  apply cut_at_ampersand in H as [Ht H]; try apply no_ampersand_QueryEscape.
  injection H as H.
  apply cut_at_ampersand in H as [Ha H]; try apply no_ampersand_QueryEscape.
  injection H as Hr.
  apply QueryEscape_inj in Ht, Ha, Hr. now subst.
Qed.

(** C8: the fingerprint is a function of the three fields it is given, and an
    injective one: parameters with equal track, artist and release have equal
    fingerprints, and parameters that differ in a field have different
    fingerprints, whatever bytes the fields hold ([&] and [=] included). *)
Theorem C8_fingerprint_deterministic_and_injective (p q : SearchParams) :
  (Track p = Track q /\ Artist p = Artist q /\ Release p = Release q ->
   generateCacheKey p = generateCacheKey q) /\
  (Track p <> Track q \/ Artist p <> Artist q \/ Release p <> Release q ->
   generateCacheKey p <> generateCacheKey q).
Proof.
  split.
  - intros (Ht & Ha & Hr). unfold generateCacheKey. now rewrite Ht, Ha, Hr.
  - intros Hne Hk. apply generateCacheKey_inj in Hk. subst q.
    destruct Hne as [H|[H|H]]; now apply H.
Qed.

(** A track holding the separators against the fields they would forge. *)
Lemma C8_witness :
  generateCacheKey {| Track := "a&artist=b"; Artist := EmptyString; Release := "r" |}
  <> generateCacheKey {| Track := "a"; Artist := "b"; Release := "r" |}.
Proof.
  apply (proj2 (C8_fingerprint_deterministic_and_injective
                  {| Track := "a&artist=b"; Artist := EmptyString; Release := "r" |}
                  {| Track := "a"; Artist := "b"; Release := "r" |})).
  left. simpl. discriminate.
Defined.

(** *** Stable sorting *)

Section SortFacts.
Context {A : Type} (less : A -> A -> bool).
Hypothesis less_irrefl : forall a, less a a = false.
Hypothesis less_trans : forall a b c, less a b = true -> less b c = true -> less a c = true.
Hypothesis less_negtrans :
  forall a b c, less a b = false -> less b c = false -> less a c = false.

Lemma less_asym a b : less a b = true -> less b a = false.
Proof.
  intros H. destruct (less b a) eqn:E; [|reflexivity].
  rewrite <- (less_irrefl a). symmetry. eapply less_trans; eauto.
Qed.

Lemma less_after a b c : less a b = true -> less c b = false -> less a c = true.
Proof.
  intros H1 H2. destruct (less a c) eqn:E; [reflexivity|].
  rewrite <- H1. symmetry. eapply less_negtrans; eauto.
Qed.

Lemma insert_front_back a x (s : list A) :
  insert_front less a (insert_back less x s)
  = insert_back less x (insert_front less a s).
Proof.
  induction s as [|y s IH]; simpl.
  - destruct (less x a); reflexivity.
  - destruct (less x y) eqn:Hxy, (less y a) eqn:Hya; simpl; rewrite ?Hxy, ?Hya.
    + now rewrite (less_trans _ _ _ Hxy Hya).
    + destruct (less x a); simpl; now rewrite ?Hxy, ?Hya.
    + now rewrite IH.
    + now rewrite (less_negtrans _ _ _ Hxy Hya), ?Hxy.
Qed.

Lemma insertion_sort_snoc (l : list A) x :
  insertion_sort less (l ++ [x]) = insert_back less x (insertion_sort less l).
Proof.
  induction l as [|a l IH]; simpl; [reflexivity|].
  now rewrite IH, insert_front_back.
Qed.

Lemma insert_front_perm x (s : list A) : Permutation (x :: s) (insert_front less x s).
Proof.
  induction s as [|y s IH]; simpl; [reflexivity|].
  destruct (less y x); [|reflexivity].
  rewrite <- IH. apply perm_swap.
Qed.

Lemma insertion_sort_perm (l : list A) : Permutation l (insertion_sort less l).
Proof.
  induction l as [|x l IH]; simpl; [reflexivity|].
  rewrite <- insert_front_perm. now constructor.
Qed.

Lemma insert_front_sorted x (s : list A) :
  sorted_by less s -> sorted_by less (insert_front less x s).
Proof.
  unfold sorted_by. induction 1 as [|y s Hs IH Hy]; simpl.
  - repeat constructor.
  - destruct (less y x) eqn:Hyx.
    + constructor; [exact IH|].
      rewrite <- insert_front_perm. constructor; [|exact Hy].
      now apply less_asym.
    + constructor; [now constructor|].
      constructor; [exact Hyx|].
      eapply Forall_impl; [exact Hy|]. simpl. intros z Hz.
      eapply less_negtrans; eauto.
Qed.

Lemma insertion_sort_sorted (l : list A) : sorted_by less (insertion_sort less l).
Proof.
  induction l as [|x l IH]; simpl; [constructor|].
  now apply insert_front_sorted.
Qed.

Lemma sink_through x (rp : list A) :
  forallb (less x) rp = true -> sink less x rp = (rp ++ [x])%list.
Proof.
  induction rp as [|z rp IH]; simpl; [reflexivity|].
  intros H. apply andb_prop in H as [Hz H]. now rewrite Hz, IH.
Qed.

Lemma sink_snoc x y (rp : list A) :
  sink less x (rp ++ [y])
  = if forallb (less x) rp then (rp ++ sink less x [y])%list
    else (sink less x rp ++ [y])%list.
Proof.
  induction rp as [|z rp IH]; simpl; [reflexivity|].
  destruct (less x z); simpl; [|reflexivity].
  rewrite IH. now destruct (forallb (less x) rp).
Qed.

Lemma sink_insert_back x (s : list A) :
  sorted_by less s -> sink less x (rev s) = rev (insert_back less x s).
Proof.
  unfold sorted_by. induction 1 as [|y s Hs IH Hy]; simpl; [reflexivity|].
  rewrite sink_snoc. destruct (less x y) eqn:Hxy; simpl.
  - assert (Hall : forallb (less x) (rev s) = true).
    { apply forallb_forall. intros z Hz. apply in_rev in Hz.
      rewrite Forall_forall in Hy. eapply less_after; eauto.
      apply Hy. now apply list_elem_of_In. }
    rewrite Hall, Hxy. now rewrite <- app_assoc.
  - rewrite Hxy, <- IH.
    destruct (forallb (less x) (rev s)) eqn:Hall; [|reflexivity].
    rewrite (sink_through _ _ Hall). now rewrite <- app_assoc.
Qed.

Lemma SliceStable_snoc (l : list A) x :
  SliceStable less (l ++ [x]) = rev (sink less x (rev (SliceStable less l))).
Proof.
  unfold SliceStable. rewrite fold_left_app. simpl. now rewrite rev_involutive.
Qed.

(** The insertion sort of the library and the textbook one agree. *)
Lemma SliceStable_insertion_sort (l : list A) :
  SliceStable less l = insertion_sort less l.
Proof.
  induction l as [|x l IH] using rev_ind; [reflexivity|].
  rewrite SliceStable_snoc, IH, insertion_sort_snoc.
  rewrite sink_insert_back by apply insertion_sort_sorted.
  apply rev_involutive.
Qed.

Lemma SliceStable_perm (l : list A) : Permutation l (SliceStable less l).
Proof. rewrite SliceStable_insertion_sort. apply insertion_sort_perm. Qed.

Lemma SliceStable_sorted (l : list A) : sorted_by less (SliceStable less l).
Proof. rewrite SliceStable_insertion_sort. apply insertion_sort_sorted. Qed.
End SortFacts.

(** *** The order of the releases *)

Lemma total_cmp_lex {A : Type} (c1 c2 : A -> A -> comparison) :
  total_cmp c1 -> total_cmp c2 -> total_cmp (lex c1 c2).
Proof.
  intros [a1 t1 e1] [a2 t2 e2].
  assert (e1r : forall a b d, c1 a b = Eq -> c1 d a = c1 d b).
  { intros a b d H. rewrite (a1 d a), (a1 d b). f_equal. now apply e1. }
  split; unfold lex.
  - intros a b. rewrite (a1 a b), (a2 a b). now destruct (c1 b a).
  - intros a b d. destruct (c1 a b) eqn:Hab; try discriminate.
    + rewrite (e1 _ _ d Hab). destruct (c1 b d); try discriminate; eauto.
    + intros _. destruct (c1 b d) eqn:Hbd; try discriminate.
      * now rewrite <- (e1r _ _ a Hbd), Hab.
      * now rewrite (t1 _ _ _ Hab Hbd).
  - intros a b d. destruct (c1 a b) eqn:Hab; try discriminate.
    intros H. rewrite (e1 _ _ d Hab). now rewrite (e2 _ _ d H).
Qed.

Lemma compare_refl (s : string) : String.compare s s = Eq.
Proof.
  induction s as [|c s IH]; simpl; [reflexivity|].
  unfold Ascii.compare. now rewrite N.compare_refl.
Qed.

Lemma total_cmp_by_field (f : MusicBrainzRelease -> string) : total_cmp (by_field f).
Proof.
  split; unfold by_field.
  - intros a b. apply String.compare_antisym.
  - intros a b d H1 H2.
    apply OrderedTypeEx.String_as_OT.cmp_lt in H1, H2.
    apply OrderedTypeEx.String_as_OT.cmp_lt.
    eapply OrderedTypeEx.String_as_OT.lt_trans; eauto.
  - intros a b d H. apply String.compare_eq_iff in H. now rewrite H.
Qed.

Lemma total_cmp_validity : total_cmp validity_cmp.
Proof.
  split; unfold validity_cmp; intros a b; try intros d;
    destruct (valid_date a), (valid_date b); try destruct (valid_date d);
    simpl; congruence.
Qed.

Lemma total_cmp_release : total_cmp release_cmp.
Proof.
  unfold release_cmp.
  repeat apply total_cmp_lex;
    first [apply total_cmp_validity | apply total_cmp_by_field].
Qed.

Lemma sorts_before_cmp a b : sorts_before a b = is_Lt (release_cmp a b).
Proof.
  unfold sorts_before, release_cmp, lex, validity_cmp, by_field.
  destruct (valid_date a), (valid_date b); try reflexivity;
    destruct (String.compare (rel_Date a) (rel_Date b)); try reflexivity;
    destruct (String.compare (rel_Title a) (rel_Title b)); try reflexivity;
    destruct (String.compare (rel_ID a) (rel_ID b)); reflexivity.
Qed.

Lemma eqb_compare (s t : string) :
  String.eqb s t = match String.compare s t with Eq => true | _ => false end.
Proof.
  destruct (String.eqb_spec s t) as [->|Hne].
  - now rewrite compare_refl.
  - destruct (String.compare s t) eqn:E; try reflexivity.
    now apply String.compare_eq_iff in E.
Qed.

(** The [less] of the code is the order of the specification. *)
Lemma release_less_sorts_before a b : release_less a b = sorts_before a b.
Proof.
  unfold release_less, sorts_before, valid_date, String.ltb.
  rewrite !eqb_compare.
  destruct (4 <=? String.length (rel_Date a))%nat,
           (4 <=? String.length (rel_Date b))%nat; simpl; try reflexivity;
    destruct (String.compare (rel_Date a) (rel_Date b)); simpl; try reflexivity;
    destruct (String.compare (rel_Title a) (rel_Title b)); simpl; try reflexivity;
    destruct (String.compare (rel_ID a) (rel_ID b)); reflexivity.
Qed.

Lemma release_less_cmp a b : release_less a b = is_Lt (release_cmp a b).
Proof. now rewrite release_less_sorts_before, sorts_before_cmp. Qed.

Lemma release_less_irrefl a : release_less a a = false.
Proof.
  rewrite release_less_cmp.
  pose proof (cmp_antisym _ total_cmp_release a a) as H.
  now destruct (release_cmp a a).
Qed.

Lemma release_less_trans a b c :
  release_less a b = true -> release_less b c = true -> release_less a c = true.
Proof.
  rewrite !release_less_cmp.
  pose proof (cmp_trans _ total_cmp_release a b c) as H.
  destruct (release_cmp a b), (release_cmp b c); try discriminate.
  now rewrite H.
Qed.

Lemma release_less_negtrans a b c :
  release_less a b = false -> release_less b c = false -> release_less a c = false.
Proof.
  rewrite !release_less_cmp.
  pose proof total_cmp_release as [anti trans eql].
  destruct (release_cmp a b) eqn:Hab; try discriminate; intros _.
  - now rewrite (eql _ _ c Hab).
  - destruct (release_cmp b c) eqn:Hbc; try discriminate; intros _.
    + rewrite (anti a c), <- (eql _ _ a Hbc), (anti b a), Hab. reflexivity.
    + rewrite (anti a c), (trans c b a); [reflexivity| |].
      * now rewrite (anti c b), Hbc.
      * now rewrite (anti b a), Hab.
Qed.

Lemma SliceStable_ext {A : Type} (f g : A -> A -> bool) (l : list A) :
  (forall a b, f a b = g a b) -> SliceStable f l = SliceStable g l.
Proof.
  intros H. unfold SliceStable. f_equal.
  assert (Hs : forall x rp, sink f x rp = sink g x rp).
  { intros x rp. induction rp as [|y rp IH]; simpl; [reflexivity|].
    now rewrite H, IH. }
  generalize (@nil A). induction l as [|x l IH]; simpl; [reflexivity|].
  intros acc. now rewrite Hs, IH.
Qed.

Lemma insertion_sort_ext {A : Type} (f g : A -> A -> bool) (l : list A) :
  (forall a b, f a b = g a b) -> insertion_sort f l = insertion_sort g l.
Proof.
  intros H.
  assert (Hi : forall x s, insert_front f x s = insert_front g x s).
  { intros x s. induction s as [|y s IH]; simpl; [reflexivity|].
    now rewrite H, IH. }
  induction l as [|x l IH]; simpl; [reflexivity|].
  now rewrite IH, Hi.
Qed.

(** The sort of the code is the stable sort of the specification. *)
Lemma SliceStable_release_less (l : list MusicBrainzRelease) :
  SliceStable release_less l = insertion_sort sorts_before l.
Proof.
  rewrite (SliceStable_insertion_sort release_less
             release_less_irrefl release_less_trans release_less_negtrans).
  apply insertion_sort_ext, release_less_sorts_before.
Qed.

Lemma find_ext' {A : Type} (f g : A -> bool) (l : list A) :
  (forall a, f a = g a) -> List.find f l = List.find g l.
Proof.
  intros H. induction l as [|x l IH]; simpl; [reflexivity|].
  now rewrite H, IH.
Qed.

(** *** The release selector and its input *)

Lemma GetBestRelease_heap (h : Heap) (releases : loc) (trackTitle : string) :
  (length (slice_elems h releases) < 2)%nat /\ fst (GetBestRelease h releases trackTitle) = h
  \/
  (2 <= length (slice_elems h releases))%nat /\
  fst (GetBestRelease h releases trackTitle)
  = <[releases := SliceStable release_less (slice_elems h releases)]> h.
Proof.
  unfold GetBestRelease.
  destruct (slice_elems h releases) as [|r1 [|r2 rs]]; simpl length.
  - left. split; [lia|reflexivity].
  - left. split; [lia|reflexivity].
  - right. split; [lia|].
    destruct (List.find (preferred trackTitle) _); [reflexivity|].
    destruct (List.find (other_title trackTitle) _); reflexivity.
Qed.

Lemma SearchMusicBrainz_hit env st params entry :
  no_parameter params = false ->
  searchCache (svc st) !! generateCacheKey (cleaned st params) = Some entry ->
  clock_check env < expiresAt entry ->
  SearchMusicBrainz env st params = (st, Ok (recordings entry)).
Proof.
  intros Hv Hl Hlt. apply Z.ltb_lt in Hlt.
  rewrite (SearchMusicBrainz_valid _ _ _ Hv). unfold cache_or_fetch.
  now rewrite Hl, Hlt.
Qed.

(** C4, as claimed, fails: the selector leaves the array of its input in
    another order, and a hydration served from the cache leaves the releases
    of the cached recording in another order, the cache mapping being the
    same. *)
Lemma C4_GetBestRelease_reorders_its_input :
  slice_elems (fst (GetBestRelease (heap warm_store) 0%nat "Song")) 0%nat
    <> slice_elems (heap warm_store) 0%nat /\
  searchCache (svc (fst (HydrateTrack (unavailable 0) warm_store sample_track)))
    = searchCache (svc warm_store) /\
  slice_elems (heap (fst (HydrateTrack (unavailable 0) warm_store sample_track)))
              (rec_Releases cached_recording)
    <> slice_elems (heap warm_store) (rec_Releases cached_recording).
Proof.
  split; [|split].
  - vm_compute. discriminate.
  - reflexivity.
  - vm_compute. discriminate.
Qed.

(** C4, amended: after the call the array of the input holds the stably
    sorted input (the same elements, none less than an earlier one), an
    input of fewer than two releases and every other array are as before;
    and a search served from the cache returns the recordings of the entry
    themselves, whose release slices are those of the cache, with the store
    as it was. *)
Theorem C4_GetBestRelease_sorts_in_place (h : Heap) (releases : loc) (trackTitle : string) :
  let h' := fst (GetBestRelease h releases trackTitle) in
  slice_elems h' releases = SliceStable release_less (slice_elems h releases) /\
  Permutation (slice_elems h releases) (slice_elems h' releases) /\
  sorted_by release_less (slice_elems h' releases) /\
  (forall other, other <> releases -> h' !! other = h !! other) /\
  ((length (slice_elems h releases) < 2)%nat -> h' = h) /\
  (forall env st params entry,
     no_parameter params = false ->
     searchCache (svc st) !! generateCacheKey (cleaned st params) = Some entry ->
     clock_check env < expiresAt entry ->
     SearchMusicBrainz env st params = (st, Ok (recordings entry))).
Proof.
  intros h'.
  assert (Hs : slice_elems h' releases = SliceStable release_less (slice_elems h releases)).
  { subst h'. destruct (GetBestRelease_heap h releases trackTitle) as [[Hl ->]|[Hl ->]].
    - destruct (slice_elems h releases) as [|r1 [|r2 rs]]; simpl in Hl; try lia; reflexivity.
    - unfold slice_elems at 1. now rewrite lookup_insert_eq. }
  split; [exact Hs|]. rewrite Hs.
  split; [exact (SliceStable_perm release_less release_less_irrefl
                   release_less_trans release_less_negtrans _)|].
  split; [exact (SliceStable_sorted release_less release_less_irrefl
                   release_less_trans release_less_negtrans _)|].
  split; [|split].
  - intros other Hne. subst h'.
    destruct (GetBestRelease_heap h releases trackTitle) as [[_ ->]|[_ ->]];
      [reflexivity|]. now apply lookup_insert_ne.
  - intros Hl. subst h'.
    destruct (GetBestRelease_heap h releases trackTitle) as [[_ ->]|[Hge _]];
      [reflexivity|lia].
  - intros env st params entry. apply SearchMusicBrainz_hit.
Qed.

(** The two sample releases end sorted, and the cache hands out its entry. *)
Lemma C4_witness :
  slice_elems (fst (GetBestRelease (heap warm_store) 0%nat "Song")) 0%nat
    = [release_us_1990; release_de_2005] /\
  SearchMusicBrainz (unavailable 0) warm_store sample_params
    = (warm_store, Ok [cached_recording]).
Proof.
  split.
  - apply (proj1 (C4_GetBestRelease_sorts_in_place (heap warm_store) 0%nat "Song")).
  - apply (proj2 (proj2 (proj2 (proj2 (proj2
             (C4_GetBestRelease_sorts_in_place (heap warm_store) 0%nat "Song")))))
             (unavailable 0) warm_store sample_params cached_entry eq_refl eq_refl).
    reflexivity.
Defined.

(** C5: for a list of two releases or more the release returned by the code
    is the one of the reference algorithm of the specification: the stable
    sort by date validity, date, title and id, then the first release with
    another title and country XW or US, else the first with another title,
    else the first. *)
Theorem C5_GetBestRelease_is_selectBestRelease (h : Heap) (releases : loc)
    (trackTitle : string) :
  (2 <= length (slice_elems h releases))%nat ->
  snd (GetBestRelease h releases trackTitle)
  = selectBestRelease (slice_elems h releases) trackTitle.
Proof.
  intros Hlen. unfold GetBestRelease, selectBestRelease.
  destruct (slice_elems h releases) as [|r1 [|r2 rs]] eqn:E; simpl in Hlen; try lia.
  rewrite SliceStable_release_less.
  rewrite (find_ext' (preferred trackTitle)
             (fun r => negb (String.eqb (rel_Title r) trackTitle)
                       && (String.eqb (rel_Country r) "XW"
                           || String.eqb (rel_Country r) "US")))
    by (intros a; unfold preferred; apply andb_comm).
  destruct (List.find _ _); [reflexivity|].
  unfold other_title.
  destruct (List.find _ _); reflexivity.
Qed.

(** Of the two sample releases the one of 1990, from the US, is returned. *)
Lemma C5_witness :
  snd (GetBestRelease (heap warm_store) 0%nat "Song") = Some release_us_1990.
Proof.
  apply (C5_GetBestRelease_is_selectBestRelease (heap warm_store) 0%nat "Song").
  vm_compute. lia.
Defined.

(** * Further properties of the code *)

(** ** Search: errors, calls and the cache *)

Lemma cache_or_fetch_trusted env st params :
  cache_or_fetch env st params
  = match trusted env st (generateCacheKey params) with
    | Some entry => (st, Ok (recordings entry))
    | None => fetch env st (generateCacheKey params) params
    end.
Proof.
  unfold cache_or_fetch, trusted.
  destruct (searchCache (svc st) !! _) as [entry|]; [|reflexivity].
  now destruct (clock_check env <? expiresAt entry).
Qed.

(** Every way the fetch can end, with the store it leaves. *)
Lemma fetch_spec env st cacheKey params :
  let endpoint := endpoint_of (build_query params) in
  let out := fetch env st cacheKey params in
  (exists ctx, limiter_Wait env = WaitErr ctx /\
     out = (waited st, Err (if ctx then ErrWaitCancelled else ErrRateLimiter)))
  \/ (limiter_Wait env = WaitOk /\ NewRequest_fails env endpoint = true /\
      out = (waited st, Err ErrCreateRequest))
  \/ (limiter_Wait env = WaitOk /\ NewRequest_fails env endpoint = false /\
      ((exists ctx, httpClient_Do env endpoint = DoErr ctx /\
          out = (requested endpoint st,
                 Err (if ctx then ErrRequestContext else ErrExecuteRequest endpoint)))
       \/ (exists code body, httpClient_Do env endpoint = DoResp code body /\
             code <> 200 /\ out = (requested endpoint st, Err (ErrStatus endpoint code)))
       \/ (exists body, httpClient_Do env endpoint = DoResp 200 body /\
             json_Decode env body = None /\
             out = (requested endpoint st, Err (ErrDecode endpoint)))
       \/ (exists body js, httpClient_Do env endpoint = DoResp 200 body /\
             json_Decode env body = Some js /\
             out = (put_cache cacheKey
                      {| recordings := snd (alloc_recordings (heap st) js);
                         expiresAt := clock_store env + cacheTTL (svc st) |}
                      (fst (alloc_recordings (heap st) js))
                      (requested endpoint st),
                    Ok (snd (alloc_recordings (heap st) js)))))).
Proof.
  intros endpoint out. subst out. unfold fetch. fold endpoint.
  destruct (limiter_Wait env) as [|ctx].
  2:{ left. exists ctx. split; [reflexivity|]. now destruct ctx. }
  right. destruct (NewRequest_fails env endpoint); [now left|].
  right. repeat split.
  destruct (httpClient_Do env endpoint) as [ctx|code body].
  { left. exists ctx. split; [reflexivity|]. now destruct ctx. }
  right. destruct (code =? 200) eqn:Hc; simpl.
  2:{ left. exists code, body. apply Z.eqb_neq in Hc. now repeat split. }
  apply Z.eqb_eq in Hc. subst code. right.
  destruct (json_Decode env body) as [js|] eqn:Hj.
  - right. exists body, js. repeat split; auto.
    now destruct (alloc_recordings (heap st) js).
  - left. exists body. now repeat split.
Qed.

Lemma no_parameter_fields (params : SearchParams) :
  no_parameter params = true
  <-> (Track params = EmptyString /\ Artist params = EmptyString /\
       Release params = EmptyString).
Proof.
  unfold no_parameter.
  destruct (Track params), (Artist params), (Release params); simpl;
    split; try discriminate; intuition discriminate.
Qed.

Lemma SearchMusicBrainz_ErrNoParameter (env : Env) (st : Store) (params : SearchParams) :
  snd (SearchMusicBrainz env st params) = Err ErrNoParameter
  <-> no_parameter params = true.
Proof.
  destruct (no_parameter params) eqn:Hv.
  - unfold SearchMusicBrainz. rewrite Hv. simpl. intuition.
  - split; [|discriminate].
    rewrite (SearchMusicBrainz_valid _ _ _ Hv), cache_or_fetch_trusted.
    destruct (trusted env st _); [discriminate|].
    destruct (fetch_spec env st (generateCacheKey (cleaned st params))
                (cleaned st params))
      as [(ctx & _ & ->)|[(_ & _ & ->)|(_ & _ &
           [(ctx & _ & ->)|[(c & b & _ & _ & ->)|[(b & _ & _ & ->)|
            (b & js & _ & _ & ->)]]])]];
      simpl; try discriminate; destruct ctx; discriminate.
Qed.

(** X1: the search ends with the error for missing parameters exactly when
    the three fields are empty, and then the store is as it was: nothing is
    cleaned, read, waited for or sent. *)
Theorem SearchMusicBrainz_no_parameter_iff (env : Env) (st : Store)
    (params : SearchParams) :
  (snd (SearchMusicBrainz env st params) = Err ErrNoParameter
   <-> (Track params = EmptyString /\ Artist params = EmptyString /\
        Release params = EmptyString)) /\
  (snd (SearchMusicBrainz env st params) = Err ErrNoParameter ->
   fst (SearchMusicBrainz env st params) = st).
Proof.
  rewrite <- no_parameter_fields. split.
  - apply SearchMusicBrainz_ErrNoParameter.
  - intros H. apply SearchMusicBrainz_ErrNoParameter in H.
    unfold SearchMusicBrainz. now rewrite H.
Qed.

(** X2: for valid parameters without a trusted cache entry, each failure of
    the fetch has its own error: a failed wait gives the cancellation error
    when the context is done and the limiter error otherwise; then the
    request that cannot be created, the request that fails (context error or
    not), a status other than 200 (the error carries the status, 201 and 204
    included) and a body that does not decode. *)
Theorem SearchMusicBrainz_error_kinds (env : Env) (st : Store) (params : SearchParams) :
  no_parameter params = false ->
  trusted env st (generateCacheKey (cleaned st params)) = None ->
  let endpoint := endpoint_of (build_query (cleaned st params)) in
  let r := snd (SearchMusicBrainz env st params) in
  (limiter_Wait env = WaitErr true -> r = Err ErrWaitCancelled) /\
  (limiter_Wait env = WaitErr false -> r = Err ErrRateLimiter) /\
  (limiter_Wait env = WaitOk ->
   (NewRequest_fails env endpoint = true -> r = Err ErrCreateRequest) /\
   (NewRequest_fails env endpoint = false ->
    (httpClient_Do env endpoint = DoErr true -> r = Err ErrRequestContext) /\
    (httpClient_Do env endpoint = DoErr false -> r = Err (ErrExecuteRequest endpoint)) /\
    (forall code body, httpClient_Do env endpoint = DoResp code body ->
       code <> 200 -> r = Err (ErrStatus endpoint code)) /\
    (forall body, httpClient_Do env endpoint = DoResp 200 body ->
       json_Decode env body = None -> r = Err (ErrDecode endpoint)))).
Proof.
  intros Hv Ht endpoint r. subst r.
  rewrite (SearchMusicBrainz_valid _ _ _ Hv), cache_or_fetch_trusted, Ht.
  unfold fetch. fold endpoint.
  split; [intros ->; reflexivity|].
  split; [intros ->; reflexivity|].
  intros ->. split; [intros ->; reflexivity|].
  intros ->. split; [intros ->; reflexivity|].
  split; [intros ->; reflexivity|].
  split.
  - intros code body -> Hc. apply Z.eqb_neq in Hc. now rewrite Hc.
  - intros body -> Hj. simpl. now rewrite Hj.
Qed.

(** The catalogue answers 204 No Content: the search fails with that status. *)
Lemma SearchMusicBrainz_error_kinds_witness :
  snd (SearchMusicBrainz no_content empty_store sample_params)
  = Err (ErrStatus (endpoint_of (build_query sample_params)) 204).
Proof.
  pose proof (SearchMusicBrainz_error_kinds no_content empty_store sample_params
                eq_refl eq_refl) as H.
  cbv zeta in H. destruct H as (_ & _ & H).
  destruct (H eq_refl) as (_ & H2).
  destruct (H2 eq_refl) as (_ & _ & H3 & _).
  apply (H3 204 EmptyString eq_refl). discriminate.
Defined.

Lemma SearchMusicBrainz_outcome env st params :
  let cacheKey := generateCacheKey (cleaned st params) in
  let out := SearchMusicBrainz env st params in
  (no_parameter params = true /\ out = (st, Err ErrNoParameter))
  \/ (no_parameter params = false /\
      exists entry, trusted env st cacheKey = Some entry /\
                    out = (st, Ok (recordings entry)))
  \/ (no_parameter params = false /\ trusted env st cacheKey = None /\
      out = fetch env st cacheKey (cleaned st params)).
Proof.
  intros cacheKey out. subst out. unfold SearchMusicBrainz.
  destruct (no_parameter params); [now left|right].
  change (clean_params (svc st) params) with (cleaned st params).
  rewrite cache_or_fetch_trusted. fold cacheKey.
  destruct (trusted env st cacheKey) as [entry|]; [left|right]; eauto.
Qed.

(** X3: a search makes no call, or one wait on the limiter, or one wait that
    the limiter admits followed by one request to the endpoint of the cleaned
    parameters; without a call the store is as it was, and after a wait
    alone the search has failed.  No request is ever sent without the
    limiter's admission. *)
Theorem SearchMusicBrainz_calls (env : Env) (st : Store) (params : SearchParams) :
  let st' := fst (SearchMusicBrainz env st params) in
  let r := snd (SearchMusicBrainz env st params) in
  let endpoint := endpoint_of (build_query (cleaned st params)) in
  (calls st' = calls st /\ st' = st)
  \/ (calls st' = (calls st ++ [LimiterWait])%list /\ exists e, r = Err e)
  \/ (calls st' = (calls st ++ [LimiterWait; HttpDo endpoint])%list /\
      limiter_Wait env = WaitOk).
Proof.
  intros st' r endpoint. subst st' r.
  destruct (SearchMusicBrainz_outcome env st params)
    as [(_ & ->)|[(_ & entry & _ & ->)|(_ & _ & ->)]]; [now left|now left|].
  assert (Hr : forall c d l, calls (record_call d (record_call c l))
                             = (calls l ++ [c; d])%list).
  { intros. simpl. now rewrite <- app_assoc. }
  destruct (fetch_spec env st (generateCacheKey (cleaned st params)) (cleaned st params))
    as [(ctx & _ & ->)|[(_ & _ & ->)|(Hw & _ &
         [(ctx & _ & ->)|[(c & b & _ & _ & ->)|[(b & _ & _ & ->)|
          (b & js & _ & _ & ->)]]])]];
    fold endpoint; simpl fst; simpl snd.
  - right. left. split; [reflexivity|]. destruct ctx; eauto.
  - right. left. eauto.
  - right. right. split; [apply Hr|exact Hw].
  - right. right. split; [apply Hr|exact Hw].
  - right. right. split; [apply Hr|exact Hw].
  - right. right. split; [apply Hr|exact Hw].
Qed.

(** X4: a search keeps the time-to-live and the cleaner of the service,
    leaves the cache entry of every fingerprint other than its own as it was,
    and never removes an entry. *)
Theorem SearchMusicBrainz_cache_frame (env : Env) (st : Store) (params : SearchParams) :
  let st' := fst (SearchMusicBrainz env st params) in
  cacheTTL (svc st') = cacheTTL (svc st) /\
  cleaner (svc st') = cleaner (svc st) /\
  (forall k, k <> generateCacheKey (cleaned st params) ->
     searchCache (svc st') !! k = searchCache (svc st) !! k) /\
  (forall k, is_Some (searchCache (svc st) !! k) ->
     is_Some (searchCache (svc st') !! k)).
Proof.
  intros st'. subst st'.
  destruct (SearchMusicBrainz_outcome env st params)
    as [(_ & ->)|[(_ & entry & _ & ->)|(_ & _ & ->)]]; [now auto|now auto|].
  destruct (fetch_spec env st (generateCacheKey (cleaned st params)) (cleaned st params))
    as [(ctx & _ & ->)|[(_ & _ & ->)|(Hw & _ &
         [(ctx & _ & ->)|[(c & b & _ & _ & ->)|[(b & _ & _ & ->)|
          (b & js & _ & _ & ->)]]])]];
    simpl; auto.
  repeat split; auto.
  - intros k Hk. now rewrite lookup_insert_ne.
  - intros k Hs.
    destruct (decide (generateCacheKey (cleaned st params) = k)) as [->|Hne].
    + rewrite lookup_insert_eq. eauto.
    + now rewrite lookup_insert_ne.
Qed.

(** Another fingerprint of the warm cache is still there after a search. *)
Lemma SearchMusicBrainz_cache_frame_witness :
  searchCache (svc (fst (SearchMusicBrainz (answering 0 [candidate_without_isrc])
                           warm_store
                           {| Track := "Other"; Artist := EmptyString;
                              Release := EmptyString |})))
    !! sample_key
  = Some cached_entry.
Proof.
  rewrite (proj1 (proj2 (proj2 (SearchMusicBrainz_cache_frame
             (answering 0 [candidate_without_isrc]) warm_store
             {| Track := "Other"; Artist := EmptyString; Release := EmptyString |})))
             sample_key).
  - reflexivity.
  - vm_compute. discriminate.
Defined.

(** X5: the round trip of the cache.  After a search that found no trusted
    entry and succeeded, a second search with the same parameters, at any
    clock before the time of the write plus the time-to-live, returns the same
    recordings and leaves the store as it is: no wait, no request, whatever
    the limiter and the network would have answered. *)
Theorem SearchMusicBrainz_cache_round_trip (env1 env2 : Env) (st st1 : Store)
    (params : SearchParams) (recs : list MusicBrainzRecording) :
  no_parameter params = false ->
  trusted env1 st (generateCacheKey (cleaned st params)) = None ->
  SearchMusicBrainz env1 st params = (st1, Ok recs) ->
  clock_check env2 < clock_store env1 + cacheTTL (svc st) ->
  SearchMusicBrainz env2 st1 params = (st1, Ok recs).
Proof.
  intros Hv Ht H1 Hclock.
  rewrite (SearchMusicBrainz_valid _ _ _ Hv), cache_or_fetch_trusted, Ht in H1.
  destruct (fetch_spec env1 st (generateCacheKey (cleaned st params)) (cleaned st params))
    as [(ctx & _ & E)|[(_ & _ & E)|(Hw & _ &
         [(ctx & _ & E)|[(c & b & _ & _ & E)|[(b & _ & _ & E)|
          (b & js & _ & _ & E)]]])]];
    rewrite E in H1; try discriminate.
  injection H1 as <- <-.
  apply (SearchMusicBrainz_hit env2 _ params
           {| recordings := snd (alloc_recordings (heap st) js);
              expiresAt := clock_store env1 + cacheTTL (svc st) |});
    [exact Hv| |exact Hclock].
  simpl. apply lookup_insert_eq.
Qed.

(** A search answered by the catalogue at 0 and stored at 1 with a
    time-to-live of 3600 is served again at 3600 when the catalogue is down. *)
Lemma SearchMusicBrainz_cache_round_trip_witness :
  SearchMusicBrainz (unavailable 3600)
    (fst (SearchMusicBrainz (answering 0 [candidate_without_isrc]) empty_store
            sample_params))
    sample_params
  = SearchMusicBrainz (answering 0 [candidate_without_isrc]) empty_store sample_params.
Proof.
  apply (SearchMusicBrainz_cache_round_trip
           (answering 0 [candidate_without_isrc]) (unavailable 3600) empty_store
           (fst (SearchMusicBrainz (answering 0 [candidate_without_isrc]) empty_store
                   sample_params))
           sample_params
           (snd (alloc_recordings ∅ [candidate_without_isrc]))
           eq_refl eq_refl eq_refl).
  reflexivity.
Defined.

(** ** Search: the heap *)

Lemma alloc_recordings_spec (h : Heap) (js : list RecordingJSON) :
  let h' := fst (alloc_recordings h js) in
  let recs := snd (alloc_recordings h js) in
  (forall l, l ∈ dom h -> h' !! l = h !! l) /\
  Forall2 (decoded_as h') js recs /\
  NoDup (map rec_Releases recs) /\
  (forall r, In r recs -> rec_Releases r ∉ dom h).
Proof.
  revert h. induction js as [|j js IH]; intros h; simpl.
  - split; [auto|split; [constructor|split; [constructor|intros r []]]].
  - unfold alloc_recording, alloc.
    set (l := fresh (dom h)).
    set (h1 := <[l := j_Releases j]> h).
    specialize (IH h1).
    destruct (alloc_recordings h1 js) as [h2 rs]. simpl in IH |- *.
    destruct IH as (Hframe & Hdec & Hnd & Hfresh).
    assert (Hl : l ∉ dom h) by apply is_fresh.
    assert (Hl1 : l ∈ dom h1).
    { subst h1. apply elem_of_dom. rewrite lookup_insert_eq. eauto. }
    assert (Hsub : forall x, x ∈ dom h -> x ∈ dom h1).
    { intros x Hx. subst h1. apply elem_of_dom. apply elem_of_dom in Hx.
      destruct (decide (l = x)) as [->|Hne].
      - rewrite lookup_insert_eq. eauto.
      - now rewrite lookup_insert_ne. }
    repeat split.
    + intros x Hx. rewrite (Hframe x (Hsub x Hx)). subst h1.
      apply lookup_insert_ne. intros ->. contradiction.
    + constructor; [|exact Hdec].
      repeat split; simpl. rewrite (Hframe l Hl1). subst h1. apply lookup_insert_eq.
    + constructor; [|exact Hnd].
      intros Hin. apply list_elem_of_In, in_map_iff in Hin as (r & Hr & Hin).
      apply (Hfresh r Hin). now rewrite Hr.
    + intros r [<-|Hin]; simpl; [exact Hl|].
      intros Hx. exact (Hfresh r Hin (Hsub _ Hx)).
Qed.

(** X6: a search never changes or frees a release array that is in the heap:
    what a slice held before the call it holds after it. *)
Theorem SearchMusicBrainz_heap_frame (env : Env) (st : Store) (params : SearchParams)
    (l : loc) (rs : list MusicBrainzRelease) :
  heap st !! l = Some rs ->
  heap (fst (SearchMusicBrainz env st params)) !! l = Some rs.
Proof.
  intros Hl.
  destruct (SearchMusicBrainz_outcome env st params)
    as [(_ & ->)|[(_ & entry & _ & ->)|(_ & _ & ->)]]; [exact Hl|exact Hl|].
  destruct (fetch_spec env st (generateCacheKey (cleaned st params)) (cleaned st params))
    as [(ctx & _ & ->)|[(_ & _ & ->)|(Hw & _ &
         [(ctx & _ & ->)|[(c & b & _ & _ & ->)|[(b & _ & _ & ->)|
          (b & js & _ & _ & ->)]]])]];
    simpl; auto.
  destruct (alloc_recordings_spec (heap st) js) as (Hframe & _).
  rewrite Hframe; [exact Hl|]. apply elem_of_dom. eauto.
Qed.

(** The array of the warm store is as it was after a fetch for another key. *)
Lemma SearchMusicBrainz_heap_frame_witness :
  heap (fst (SearchMusicBrainz (answering 0 [candidate_without_isrc]) warm_store
               {| Track := "Other"; Artist := EmptyString; Release := EmptyString |}))
    !! 0%nat
  = Some [release_de_2005; release_us_1990].
Proof.
  apply (SearchMusicBrainz_heap_frame (answering 0 [candidate_without_isrc]) warm_store
           {| Track := "Other"; Artist := EmptyString; Release := EmptyString |}
           0%nat [release_de_2005; release_us_1990]).
  reflexivity.
Defined.

(** X7: when a search without a trusted entry succeeds, the recordings it
    returns are the ones the decoder read, field by field and in the same
    order, each with its releases in an array of its own: the slices are
    pairwise different and none was in the heap before; the entry written
    under the fingerprint holds these recordings and expires one time-to-live
    after the clock of the write. *)
Theorem SearchMusicBrainz_fetched (env : Env) (st st' : Store) (params : SearchParams)
    (recs : list MusicBrainzRecording) :
  no_parameter params = false ->
  trusted env st (generateCacheKey (cleaned st params)) = None ->
  SearchMusicBrainz env st params = (st', Ok recs) ->
  exists js,
    fetch_succeeds env (endpoint_of (build_query (cleaned st params))) js /\
    Forall2 (decoded_as (heap st')) js recs /\
    NoDup (map rec_Releases recs) /\
    (forall r, In r recs -> heap st !! rec_Releases r = None) /\
    searchCache (svc st') !! generateCacheKey (cleaned st params)
    = Some {| recordings := recs;
              expiresAt := clock_store env + cacheTTL (svc st) |}.
Proof.
  intros Hv Ht H.
  rewrite (SearchMusicBrainz_valid _ _ _ Hv), cache_or_fetch_trusted, Ht in H.
  destruct (fetch_spec env st (generateCacheKey (cleaned st params)) (cleaned st params))
    as [(ctx & _ & E)|[(_ & _ & E)|(Hw & Hn &
         [(ctx & _ & E)|[(c & b & _ & _ & E)|[(b & _ & _ & E)|
          (b & js & Hd & Hj & E)]]])]];
    rewrite E in H; try discriminate.
  injection H as <- <-. exists js.
  destruct (alloc_recordings_spec (heap st) js) as (_ & Hdec & Hnd & Hfresh).
  split; [repeat split; eauto|].
  split; [exact Hdec|]. split; [exact Hnd|]. split.
  - intros r Hin. apply not_elem_of_dom. now apply Hfresh.
  - simpl. apply lookup_insert_eq.
Qed.

(** One recording with two releases is fetched into the empty heap. *)
Lemma SearchMusicBrainz_fetched_witness :
  exists js,
    fetch_succeeds (answering 0 [candidate_without_isrc])
      (endpoint_of (build_query (cleaned empty_store sample_params))) js /\
    Forall2 (decoded_as
               (heap (fst (SearchMusicBrainz (answering 0 [candidate_without_isrc])
                             empty_store sample_params))))
      js (snd (alloc_recordings ∅ [candidate_without_isrc])).
Proof.
  destruct (SearchMusicBrainz_fetched (answering 0 [candidate_without_isrc])
              empty_store
              (fst (SearchMusicBrainz (answering 0 [candidate_without_isrc])
                      empty_store sample_params))
              sample_params
              (snd (alloc_recordings ∅ [candidate_without_isrc]))
              eq_refl eq_refl eq_refl) as (js & H1 & H2 & _).
  exists js. split; assumption.
Defined.

(** ** The release selector: what it returns *)

Section SortedFacts.
Context {A : Type} (less : A -> A -> bool).
Hypothesis less_irrefl : forall a, less a a = false.

Lemma insertion_sort_sorted_id (l : list A) :
  sorted_by less l -> insertion_sort less l = l.
Proof.
  unfold sorted_by. induction 1 as [|x l Hs IH Hx]; simpl; [reflexivity|].
  rewrite IH. destruct Hx as [|y l Hy Hl]; simpl; [reflexivity|].
  now rewrite Hy.
Qed.

Lemma find_sorted (p : A -> bool) (l : list A) (r : A) :
  sorted_by less l -> List.find p l = Some r ->
  forall r', In r' l -> p r' = true -> less r' r = false.
Proof.
  unfold sorted_by. induction 1 as [|y l Hs IH Hy]; simpl; [discriminate|].
  destruct (p y) eqn:Hp.
  - intros [= <-] r' [<-|Hin] _; [apply less_irrefl|].
    rewrite Forall_forall in Hy. apply Hy. now apply list_elem_of_In.
  - intros Hf r' [<-|Hin] Hr'; [congruence|]. now apply IH.
Qed.

Lemma head_sorted (l : list A) (r : A) :
  sorted_by less l -> head l = Some r ->
  forall r', In r' l -> less r' r = false.
Proof.
  unfold sorted_by. destruct 1 as [|y l Hs Hy]; simpl; [discriminate|].
  intros [= <-] r' [<-|Hin]; [apply less_irrefl|].
  rewrite Forall_forall in Hy. apply Hy. now apply list_elem_of_In.
Qed.

(** Two sorted lists with the same elements are equal when the order tells
    every two of them apart. *)
Lemma sorted_perm_unique (l1 l2 : list A) :
  sorted_by less l1 -> sorted_by less l2 -> Permutation l1 l2 ->
  (forall a b, In a l1 -> In b l1 -> less a b = false -> less b a = false -> a = b) ->
  l1 = l2.
Proof.
  unfold sorted_by. intros H1. revert l2.
  induction H1 as [|x l1 Hs1 IH Hx]; intros l2 H2 Hp Htot.
  - apply Permutation_nil in Hp. now subst.
  - destruct H2 as [|y l2 Hs2 Hy].
    { apply Permutation_sym, Permutation_nil in Hp. discriminate. }
    assert (Hxy : x = y).
    { rewrite Forall_forall in Hx, Hy.
      assert (Hyin : In y (x :: l1))
        by (eapply Permutation_in; [apply Permutation_sym; exact Hp|now left]).
      assert (Hxin : In x (y :: l2))
        by (eapply Permutation_in; [exact Hp|now left]).
      apply Htot; [now left|exact Hyin| |].
      - destruct Hxin as [->|Hin]; [apply less_irrefl|].
        apply Hy. now apply list_elem_of_In.
      - destruct Hyin as [->|Hin]; [apply less_irrefl|].
        apply Hx. now apply list_elem_of_In. }
    subst y. f_equal. apply IH; [exact Hs2| |].
    + eapply Permutation_cons_inv. exact Hp.
    + intros a b Ha Hb. apply Htot; now right.
Qed.
End SortedFacts.

Lemma SliceStable_releases_perm (l : list MusicBrainzRelease) :
  Permutation l (SliceStable release_less l).
Proof.
  exact (SliceStable_perm release_less release_less_irrefl
           release_less_trans release_less_negtrans l).
Qed.

Lemma SliceStable_releases_sorted (l : list MusicBrainzRelease) :
  sorted_by release_less (SliceStable release_less l).
Proof.
  exact (SliceStable_sorted release_less release_less_irrefl
           release_less_trans release_less_negtrans l).
Qed.

(** The release returned is the one found by the three scans of the sorted
    input, whatever the length of the input. *)
Lemma GetBestRelease_scan (h : Heap) (releases : loc) (trackTitle : string) :
  snd (GetBestRelease h releases trackTitle)
  = scan trackTitle (SliceStable release_less (slice_elems h releases)).
Proof.
  unfold GetBestRelease, scan.
  destruct (slice_elems h releases) as [|r1 [|r2 rs]].
  - reflexivity.
  - unfold SliceStable. simpl.
    destruct (preferred trackTitle r1); [reflexivity|].
    now destruct (other_title trackTitle r1).
  - destruct (List.find (preferred trackTitle) _); [reflexivity|].
    now destruct (List.find (other_title trackTitle) _).
Qed.

Lemma scan_some (trackTitle : string) (l : list MusicBrainzRelease) r :
  scan trackTitle l = Some r -> In r l.
Proof.
  unfold scan.
  destruct (List.find (preferred trackTitle) l) eqn:E1.
  { intros [= <-]. now apply find_some in E1. }
  destruct (List.find (other_title trackTitle) l) eqn:E2.
  { intros [= <-]. now apply find_some in E2. }
  destruct l; simpl; [discriminate|]. intros [= <-]. now left.
Qed.

Lemma GetBestRelease_none (h : Heap) (releases : loc) (trackTitle : string) :
  snd (GetBestRelease h releases trackTitle) = None <-> slice_elems h releases = [].
Proof.
  rewrite GetBestRelease_scan.
  pose proof (SliceStable_releases_perm (slice_elems h releases)) as Hp.
  split.
  - intros Hn. destruct (SliceStable release_less (slice_elems h releases)) as [|x l] eqn:E.
    + apply Permutation_sym, Permutation_nil in Hp. exact Hp.
    + unfold scan in Hn. simpl in Hn.
      destruct (preferred trackTitle x); [discriminate|].
      destruct (List.find (preferred trackTitle) l); [discriminate|].
      destruct (other_title trackTitle x); [discriminate|].
      destruct (List.find (other_title trackTitle) l); discriminate.
  - intros ->. reflexivity.
Qed.

Lemma GetBestRelease_in (h : Heap) (releases : loc) (trackTitle : string) r :
  snd (GetBestRelease h releases trackTitle) = Some r -> In r (slice_elems h releases).
Proof.
  rewrite GetBestRelease_scan. intros Hr. apply scan_some in Hr.
  eapply Permutation_in; [|exact Hr].
  apply Permutation_sym, SliceStable_releases_perm.
Qed.

(** X8: the selector returns no release exactly when its input is empty, and
    a release it returns is one of the releases of the input. *)
Theorem GetBestRelease_returns_an_input (h : Heap) (releases : loc) (trackTitle : string) :
  (snd (GetBestRelease h releases trackTitle) = None <-> slice_elems h releases = []) /\
  (forall r, snd (GetBestRelease h releases trackTitle) = Some r ->
             In r (slice_elems h releases)).
Proof.
  split.
  - apply GetBestRelease_none.
  - intros r. apply GetBestRelease_in.
Qed.

(** X9: the release returned is of the best rank present in the input (another
    title and country XW or US, else another title, else any), and no
    release of the input with that rank sorts before it: it is the earliest
    of its rank in the order by date validity, date, title and id. *)
Theorem GetBestRelease_best_rank_earliest (h : Heap) (releases : loc)
    (trackTitle : string) (r : MusicBrainzRelease) :
  snd (GetBestRelease h releases trackTitle) = Some r ->
  forall r', In r' (slice_elems h releases) ->
    (tier trackTitle r <= tier trackTitle r')%nat /\
    (tier trackTitle r' = tier trackTitle r -> release_less r' r = false).
Proof.
  rewrite GetBestRelease_scan.
  pose proof (SliceStable_releases_perm (slice_elems h releases)) as Hp.
  pose proof (SliceStable_releases_sorted (slice_elems h releases)) as Hs.
  set (sorted := SliceStable release_less (slice_elems h releases)) in *.
  intros Hr r' Hin. apply (Permutation_in _ Hp) in Hin.
  unfold scan in Hr. unfold tier.
  assert (Hpo : forall x, preferred trackTitle x = true -> other_title trackTitle x = true).
  { intros x Hx. unfold preferred in Hx. now apply andb_prop in Hx as [_ Hx]. }
  destruct (List.find (preferred trackTitle) sorted) eqn:E1.
  { injection Hr as ->.
    destruct (find_some _ _ E1) as [_ Hpr]. rewrite Hpr. split; [lia|].
    intros Ht. apply (find_sorted release_less release_less_irrefl _ _ _ Hs E1 _ Hin).
    destruct (preferred trackTitle r'); [reflexivity|].
    destruct (other_title trackTitle r'); discriminate. }
  pose proof (find_none _ _ E1) as Hnone.
  rewrite (Hnone r' Hin).
  destruct (List.find (other_title trackTitle) sorted) eqn:E2.
  { injection Hr as ->.
    destruct (find_some _ _ E2) as [Hrin Hot]. rewrite (Hnone r Hrin), Hot.
    split; [destruct (other_title trackTitle r'); lia|].
    intros Ht. apply (find_sorted release_less release_less_irrefl _ _ _ Hs E2 _ Hin).
    destruct (other_title trackTitle r'); [reflexivity|discriminate]. }
  pose proof (find_none _ _ E2) as Hnone2.
  rewrite (Hnone2 r' Hin).
  assert (Hrin : In r sorted) by (destruct sorted; [discriminate|injection Hr as ->; now left]).
  rewrite (Hnone r Hrin), (Hnone2 r Hrin). split; [lia|].
  intros _. exact (head_sorted release_less release_less_irrefl _ _ Hs Hr _ Hin).
Qed.

(** Of the two sample releases the German one of 2005 is of the second rank
    and the one returned, from the US, of the first. *)
Lemma GetBestRelease_best_rank_earliest_witness :
  (tier "Song" release_us_1990 <= tier "Song" release_de_2005)%nat.
Proof.
  apply (GetBestRelease_best_rank_earliest (heap warm_store) 0%nat "Song"
           release_us_1990 eq_refl release_de_2005).
  vm_compute. auto.
Defined.

Lemma GetBestRelease_elems (h : Heap) (releases : loc) (trackTitle : string) :
  slice_elems (fst (GetBestRelease h releases trackTitle)) releases
  = SliceStable release_less (slice_elems h releases).
Proof.
  destruct (GetBestRelease_heap h releases trackTitle) as [[Hl ->]|[Hl ->]].
  - destruct (slice_elems h releases) as [|r1 [|r2 rs]]; simpl in Hl; try lia; reflexivity.
  - unfold slice_elems at 1. now rewrite lookup_insert_eq.
Qed.

Lemma SliceStable_releases_idem (l : list MusicBrainzRelease) :
  SliceStable release_less (SliceStable release_less l) = SliceStable release_less l.
Proof.
  rewrite (SliceStable_insertion_sort release_less release_less_irrefl
             release_less_trans release_less_negtrans (SliceStable release_less l)).
  apply insertion_sort_sorted_id, SliceStable_releases_sorted.
Qed.

(** On a slice that is sorted the selector leaves the heap as it is. *)
Lemma GetBestRelease_sorted_heap (h : Heap) (releases : loc) (trackTitle : string) :
  SliceStable release_less (slice_elems h releases) = slice_elems h releases ->
  fst (GetBestRelease h releases trackTitle) = h.
Proof.
  intros Hs.
  destruct (GetBestRelease_heap h releases trackTitle) as [[_ ->]|[Hl ->]];
    [reflexivity|].
  rewrite Hs. apply insert_id. unfold slice_elems in *.
  destruct (h !! releases); [reflexivity|]. simpl in Hl. lia.
Qed.

(** X10: a second selection on the same slice, for any title, leaves the heap
    as the first one left it and returns what it would have returned on the
    slice as it first was: the sort is done once for all. *)
Theorem GetBestRelease_twice (h : Heap) (releases : loc) (title1 title2 : string) :
  GetBestRelease (fst (GetBestRelease h releases title1)) releases title2
  = (fst (GetBestRelease h releases title1), snd (GetBestRelease h releases title2)).
Proof.
  set (h' := fst (GetBestRelease h releases title1)).
  assert (Hel : slice_elems h' releases
                = SliceStable release_less (slice_elems h releases))
    by apply GetBestRelease_elems.
  rewrite (surjective_pairing (GetBestRelease h' releases title2)). f_equal.
  - apply GetBestRelease_sorted_heap. rewrite Hel. apply SliceStable_releases_idem.
  - rewrite !GetBestRelease_scan, Hel. now rewrite SliceStable_releases_idem.
Qed.

(** ** The release selector: the order of its input *)

Section StableFacts.
Context {A : Type} (less : A -> A -> bool).
Hypothesis less_negtrans :
  forall a b c, less a b = false -> less b c = false -> less a c = false.

(** Inserting [x] in front of the elements that do not come before it keeps
    [x] in front of the elements that the order does not tell apart from it. *)
Lemma filter_insert_front (a x : A) (s : list A) :
  List.filter (fun y => negb (less a y) && negb (less y a)) (insert_front less x s)
  = List.filter (fun y => negb (less a y) && negb (less y a)) (x :: s).
Proof.
  induction s as [|y s IH]; [reflexivity|].
  simpl insert_front. destruct (less y x) eqn:Hyx; [|reflexivity].
  simpl List.filter at 1. rewrite IH. simpl.
  destruct (less a x) eqn:Hax, (less x a) eqn:Hxa; simpl; try reflexivity.
  destruct (less a y) eqn:Hay, (less y a) eqn:Hya; simpl; try reflexivity.
  rewrite (less_negtrans _ _ _ Hya Hax) in Hyx. discriminate.
Qed.

Lemma filter_insertion_sort (a : A) (l : list A) :
  List.filter (fun y => negb (less a y) && negb (less y a)) (insertion_sort less l)
  = List.filter (fun y => negb (less a y) && negb (less y a)) l.
Proof.
  induction l as [|x l IH]; [reflexivity|].
  simpl insertion_sort. rewrite filter_insert_front. simpl. now rewrite IH.
Qed.
End StableFacts.

Lemma release_cmp_Eq_fields a b :
  release_cmp a b = Eq ->
  rel_Date a = rel_Date b /\ rel_Title a = rel_Title b /\ rel_ID a = rel_ID b.
Proof.
  unfold release_cmp, lex, validity_cmp, by_field.
  destruct (valid_date a), (valid_date b); try discriminate;
    destruct (String.compare (rel_Date a) (rel_Date b)) eqn:Hd; try discriminate;
    destruct (String.compare (rel_Title a) (rel_Title b)) eqn:Ht; try discriminate;
    intros Hi; repeat split; now apply String.compare_eq_iff.
Qed.

Lemma release_less_total a b :
  release_less a b = false -> release_less b a = false ->
  rel_Date a = rel_Date b /\ rel_Title a = rel_Title b /\ rel_ID a = rel_ID b.
Proof.
  rewrite !release_less_cmp.
  rewrite (cmp_antisym _ total_cmp_release b a).
  destruct (release_cmp a b) eqn:E; try discriminate.
  intros _ _. now apply release_cmp_Eq_fields.
Qed.

Lemma same_key_cmp a b : same_key a b = true -> release_cmp a b = Eq.
Proof.
  unfold same_key. intros H.
  apply andb_prop in H as [H Hi]. apply andb_prop in H as [Hd Ht].
  apply String.eqb_eq in Hd, Ht, Hi.
  unfold release_cmp, lex, validity_cmp, by_field, valid_date.
  rewrite Hd, Ht, Hi, !compare_refl.
  now destruct (4 <=? String.length (rel_Date b))%nat.
Qed.

Lemma same_key_incomparable a b :
  same_key a b = negb (release_less a b) && negb (release_less b a).
Proof.
  destruct (same_key a b) eqn:Hk.
  - pose proof (same_key_cmp a b Hk) as E.
    rewrite !release_less_cmp, (cmp_antisym _ total_cmp_release b a), E.
    reflexivity.
  - destruct (release_less a b) eqn:Hab; [reflexivity|].
    destruct (release_less b a) eqn:Hba; [reflexivity|].
    destruct (release_less_total a b Hab Hba) as (Hd & Ht & Hi).
    unfold same_key in Hk. rewrite Hd, Ht, Hi, !String.eqb_refl in Hk.
    discriminate.
Qed.

(** X11: the sort is stable: releases with the same date, title and id, which
    the order does not tell apart, are after the call in the order they had
    in the input. *)
Theorem GetBestRelease_stable (h : Heap) (releases : loc) (trackTitle : string)
    (a : MusicBrainzRelease) :
  List.filter (same_key a) (slice_elems (fst (GetBestRelease h releases trackTitle)) releases)
  = List.filter (same_key a) (slice_elems h releases).
Proof.
  rewrite GetBestRelease_elems.
  rewrite (SliceStable_insertion_sort release_less release_less_irrefl
             release_less_trans release_less_negtrans).
  rewrite !(filter_ext _ _ (same_key_incomparable a)).
  apply filter_insertion_sort, release_less_negtrans.
Qed.

Lemma NoDup_map_inj {A B : Type} (f : A -> B) (l : list A) (a b : A) :
  NoDup (map f l) -> In a l -> In b l -> f a = f b -> a = b.
Proof.
  induction l as [|x l IH]; simpl; [intros _ []|].
  intros Hnd. apply NoDup_cons in Hnd as [Hx Hnd].
  assert (Hnot : forall y, In y l -> f x <> f y).
  { intros y Hy E. apply Hx. rewrite E.
    apply list_elem_of_In, in_map. exact Hy. }
  intros [<-|Ha] [<-|Hb] E; auto.
  - destruct (Hnot b Hb E).
  - destruct (Hnot a Ha (eq_sym E)).
Qed.

(** X12: when the releases of the input have pairwise different ids, the
    order in which the input lists them does not matter: two inputs with the
    same releases end in the same order and give the same release. *)
Theorem GetBestRelease_order_independent (h1 h2 : Heap) (s1 s2 : loc)
    (trackTitle : string) :
  Permutation (slice_elems h1 s1) (slice_elems h2 s2) ->
  NoDup (map rel_ID (slice_elems h1 s1)) ->
  slice_elems (fst (GetBestRelease h1 s1 trackTitle)) s1
  = slice_elems (fst (GetBestRelease h2 s2 trackTitle)) s2 /\
  snd (GetBestRelease h1 s1 trackTitle) = snd (GetBestRelease h2 s2 trackTitle).
Proof.
  intros Hp Hnd.
  assert (Hsame : SliceStable release_less (slice_elems h1 s1)
                  = SliceStable release_less (slice_elems h2 s2)).
  { apply (sorted_perm_unique release_less release_less_irrefl);
      try apply SliceStable_releases_sorted.
    - rewrite <- (SliceStable_releases_perm (slice_elems h1 s1)).
      rewrite <- (SliceStable_releases_perm (slice_elems h2 s2)). exact Hp.
    - intros a b Ha Hb Hab Hba.
      apply (Permutation_in _ (Permutation_sym (SliceStable_releases_perm _))) in Ha, Hb.
      apply (NoDup_map_inj rel_ID _ a b Hnd Ha Hb).
      now apply release_less_total. }
  now rewrite !GetBestRelease_elems, !GetBestRelease_scan, Hsame.
Qed.

(** The two sample releases in both orders. *)
Lemma GetBestRelease_order_independent_witness :
  snd (GetBestRelease {[ 0%nat := [release_de_2005; release_us_1990] ]} 0%nat "Song")
  = snd (GetBestRelease {[ 0%nat := [release_us_1990; release_de_2005] ]} 0%nat "Song").
Proof.
  apply (GetBestRelease_order_independent
           {[ 0%nat := [release_de_2005; release_us_1990] ]}
           {[ 0%nat := [release_us_1990; release_de_2005] ]} 0%nat 0%nat "Song").
  - vm_compute. apply perm_swap.
  - vm_compute. repeat (apply NoDup_cons; split; [|]).
    + intros H. apply list_elem_of_In in H. simpl in H. intuition discriminate.
    + intros H. apply list_elem_of_In in H. simpl in H. intuition discriminate.
    + apply NoDup_nil. exact I.
Defined.

(** ** Hydration *)

Lemma HydrateTrack_search_failed env st track st1 e :
  SearchMusicBrainz env st (hydrate_params track) = (st1, Err e) ->
  HydrateTrack env st track = (st1, Failed (SearchFailed e)).
Proof.
  intros Hs. unfold HydrateTrack. fold (hydrate_params track). now rewrite Hs.
Qed.

Lemma HydrateTrack_no_results env st track st1 :
  SearchMusicBrainz env st (hydrate_params track) = (st1, Ok []) ->
  HydrateTrack env st track = (st1, Failed NoResultsFound).
Proof.
  intros Hs. unfold HydrateTrack. fold (hydrate_params track). now rewrite Hs.
Qed.

(** The hydration after a search that returned a first candidate. *)
Lemma HydrateTrack_candidate env st track st1 r rest :
  SearchMusicBrainz env st (hydrate_params track) = (st1, Ok (r :: rest)) ->
  HydrateTrack env st track
  = (set_heap (fst (GetBestRelease (heap st1) (rec_Releases r) (rec_Title r))) st1,
     match rec_ISRCs r, snd (GetBestRelease (heap st1) (rec_Releases r) (rec_Title r)) with
     | [], _ => Panicked IndexOutOfRange
     | _ :: _, None => Panicked NilDereference
     | isrc0 :: _, Some album =>
         Returned
           {| trk_HasStamped := trk_HasStamped track;
              trk_PlayID := trk_PlayID track;
              trk_Name := trk_Name track;
              trk_URL := trk_URL track;
              trk_ServiceBaseUrl := trk_ServiceBaseUrl track;
              trk_RecordingMBID := rec_ID r;
              trk_Album := rel_Title album;
              trk_ReleaseMBID := rel_ID album;
              trk_ISRC := isrc0;
              trk_Timestamp := trk_Timestamp track;
              trk_ProgressMs := trk_ProgressMs track;
              trk_DurationMs := rec_Length r;
              trk_Artist := credited_artists r |}
     end).
Proof.
  intros Hs. unfold HydrateTrack. fold (hydrate_params track). rewrite Hs.
  destruct (GetBestRelease (heap st1) (rec_Releases r) (rec_Title r)) as [h alb].
  simpl. destruct (rec_ISRCs r) as [|i others]; [reflexivity|].
  simpl. now destruct alb.
Qed.

(** X13: the four ways a hydration ends.  An error of the search is returned
    as it is, with the store the search left; an empty answer gives the
    error for no results; with a first candidate, the call panics exactly
    when the candidate has no ISRC or no release, and returns a track
    exactly when it has both. *)
Theorem HydrateTrack_outcome (env : Env) (st : Store) (track : Track_) :
  let search := SearchMusicBrainz env st (hydrate_params track) in
  let out := HydrateTrack env st track in
  (forall e, snd search = Err e -> out = (fst search, Failed (SearchFailed e))) /\
  (snd search = Ok [] -> out = (fst search, Failed NoResultsFound)) /\
  (forall r rest, snd search = Ok (r :: rest) ->
     let releases := slice_elems (heap (fst search)) (rec_Releases r) in
     ((exists p, snd out = Panicked p) <-> (rec_ISRCs r = [] \/ releases = [])) /\
     ((exists t, snd out = Returned t) <-> (rec_ISRCs r <> [] /\ releases <> []))).
Proof.
  intros search out. subst out.
  destruct search as [st1 res] eqn:Hs. subst search. simpl fst. simpl snd.
  split; [|split].
  - intros e ->. now apply HydrateTrack_search_failed.
  - intros ->. now apply HydrateTrack_no_results.
  - intros r rest ->. rewrite (HydrateTrack_candidate _ _ _ _ _ _ Hs). simpl snd.
    pose proof (GetBestRelease_none (heap st1) (rec_Releases r) (rec_Title r))
      as Hnone.
    destruct (snd (GetBestRelease (heap st1) (rec_Releases r) (rec_Title r)))
      as [album|].
    + assert (Hne : slice_elems (heap st1) (rec_Releases r) <> []).
      { intros E. apply Hnone in E. discriminate. }
      destruct (rec_ISRCs r) as [|i others]; split; split.
      * auto.
      * eauto.
      * intros [t Ht]. discriminate.
      * intros [Hi _]. now destruct Hi.
      * intros [p Hp]. discriminate.
      * intros [Hi|Hr]; [discriminate|contradiction].
      * intros _. split; [discriminate|exact Hne].
      * eauto.
    + assert (He : slice_elems (heap st1) (rec_Releases r) = []) by now apply Hnone.
      destruct (rec_ISRCs r) as [|i others]; split; split; eauto.
      * intros [t Ht]. discriminate.
      * intros [Hi _]. now destruct Hi.
      * intros [t Ht]. discriminate.
      * intros [_ Hr]. contradiction.
Qed.

(** X14: the track a hydration returns.  The play fields and the name are
    those of the input; the recording id, the duration and the ISRC (the first
    one) are those of the first candidate; the album and the release id are
    the title and the id of one release of the candidate, the one the selector
    returns; the artists are the credits of the candidate, in their order,
    each with the artist id as both ids.  The album, the ISRC and the
    artists of the input are not used. *)
Theorem HydrateTrack_returned (env : Env) (st : Store) (track t : Track_) :
  snd (HydrateTrack env st track) = Returned t ->
  trk_HasStamped t = trk_HasStamped track /\ trk_PlayID t = trk_PlayID track /\
  trk_Name t = trk_Name track /\ trk_URL t = trk_URL track /\
  trk_ServiceBaseUrl t = trk_ServiceBaseUrl track /\
  trk_Timestamp t = trk_Timestamp track /\ trk_ProgressMs t = trk_ProgressMs track /\
  exists st1 r rest album,
    SearchMusicBrainz env st (hydrate_params track) = (st1, Ok (r :: rest)) /\
    trk_RecordingMBID t = rec_ID r /\ trk_DurationMs t = rec_Length r /\
    head (rec_ISRCs r) = Some (trk_ISRC t) /\
    snd (GetBestRelease (heap st1) (rec_Releases r) (rec_Title r)) = Some album /\
    In album (slice_elems (heap st1) (rec_Releases r)) /\
    trk_Album t = rel_Title album /\ trk_ReleaseMBID t = rel_ID album /\
    map art_Name (trk_Artist t) = map ac_Name (rec_ArtistCredit r) /\
    map art_ID (trk_Artist t) = map ac_Artist_ID (rec_ArtistCredit r) /\
    map art_MBID (trk_Artist t) = map ac_Artist_ID (rec_ArtistCredit r).
Proof.
  destruct (SearchMusicBrainz env st (hydrate_params track)) as [st1 [[|r rest]|e]] eqn:Hs.
  - rewrite (HydrateTrack_no_results _ _ _ _ Hs). discriminate.
  - rewrite (HydrateTrack_candidate _ _ _ _ _ _ Hs). simpl snd.
    destruct (rec_ISRCs r) as [|i others] eqn:Hi; [discriminate|].
    destruct (snd (GetBestRelease (heap st1) (rec_Releases r) (rec_Title r)))
      as [album|] eqn:Hg; [|discriminate].
    intros [= <-]. simpl. repeat (split; [reflexivity|]).
    exists st1, r, rest, album. rewrite Hi. simpl.
    do 4 (split; [reflexivity|]).
    split; [exact Hg|].
    split; [exact (GetBestRelease_in (heap st1) _ _ _ Hg)|].
    do 2 (split; [reflexivity|]).
    unfold credited_artists. rewrite !map_map. simpl. auto.
  - rewrite (HydrateTrack_search_failed _ _ _ _ _ Hs). discriminate.
Qed.

(** The track hydrated from the warm cache. *)
Lemma HydrateTrack_returned_witness :
  trk_Name sample_enriched = trk_Name sample_track /\
  trk_PlayID sample_enriched = trk_PlayID sample_track.
Proof.
  pose proof (HydrateTrack_returned (unavailable 0) warm_store sample_track
                sample_enriched eq_refl) as (_ & Hp & Hn & _).
  split; assumption.
Defined.

(** The candidate of the warm cache has an ISRC and two releases. *)
Lemma HydrateTrack_outcome_witness :
  exists t, snd (HydrateTrack (unavailable 0) warm_store sample_track) = Returned t.
Proof.
  apply (proj2 (proj2 (HydrateTrack_outcome (unavailable 0) warm_store sample_track))
           cached_recording [] eq_refl).
  split; vm_compute; discriminate.
Defined.

Lemma append_empty (a b : string) :
  a ++ b = EmptyString -> a = EmptyString /\ b = EmptyString.
Proof. destruct a; simpl; [auto|discriminate]. Qed.

Lemma Join_empty (elems : list string) :
  Join elems ", " = EmptyString <-> elems = [] \/ elems = [EmptyString].
Proof.
  unfold Join. destruct elems as [|x [|y l]]; simpl.
  - split; auto.
  - split; [intros ->; auto|intros [H|H]; [discriminate|now injection H]].
  - split.
    + intros H. apply append_empty in H as [_ H]. discriminate.
    + intros [H|H]; discriminate.
Qed.

Lemma HydrateTrack_failed_iff env st track e :
  snd (HydrateTrack env st track) = Failed (SearchFailed e)
  <-> snd (SearchMusicBrainz env st (hydrate_params track)) = Err e.
Proof.
  destruct (SearchMusicBrainz env st (hydrate_params track)) as [st1 [[|r rest]|e']] eqn:Hs.
  - rewrite (HydrateTrack_no_results _ _ _ _ Hs). simpl. split; discriminate.
  - rewrite (HydrateTrack_candidate _ _ _ _ _ _ Hs). simpl.
    destruct (rec_ISRCs r); [split; discriminate|].
    destruct (snd (GetBestRelease _ _ _)); split; discriminate.
  - rewrite (HydrateTrack_search_failed _ _ _ _ _ Hs). simpl.
    split; intros [= ->]; reflexivity.
Qed.

(** X15: a hydration is refused for missing parameters exactly when the track
    has no name, no album, and no artist or one artist without name.  A
    track without name and album whose artists are two or more, all without
    name, is searched: the joined artist names are the separators. *)
Theorem HydrateTrack_no_parameter_iff (env : Env) (st : Store) (track : Track_) :
  snd (HydrateTrack env st track) = Failed (SearchFailed ErrNoParameter)
  <-> (trk_Name track = EmptyString /\ trk_Album track = EmptyString /\
       (trk_Artist track = [] \/
        exists a, trk_Artist track = [a] /\ art_Name a = EmptyString)).
Proof.
  rewrite HydrateTrack_failed_iff, SearchMusicBrainz_ErrNoParameter, no_parameter_fields.
  simpl. rewrite Join_empty.
  split.
  - intros (Hn & Ha & Hr). repeat split; auto.
    destruct Ha as [Ha|Ha].
    + left. now destruct (trk_Artist track).
    + right. destruct (trk_Artist track) as [|a [|b l]]; try discriminate.
      exists a. now injection Ha.
  - intros (Hn & Hr & Ha). repeat split; auto.
    destruct Ha as [->|(a & -> & Ha)]; simpl; auto. rewrite Ha. auto.
Qed.

(** Two artists without name: the search goes on, with the artist [", "]. *)
Lemma HydrateTrack_no_parameter_iff_witness :
  snd (HydrateTrack (unavailable 0) empty_store nameless_track)
  <> Failed (SearchFailed ErrNoParameter).
Proof.
  intros H.
  apply (proj1 (HydrateTrack_no_parameter_iff (unavailable 0) empty_store
                  nameless_track)) in H.
  destruct H as (_ & _ & [H|(a & H & _)]); discriminate.
Defined.

(** X16: a hydration changes the store the search left in one way only: it
    may reorder the release array of the first candidate.  The service (the
    cache, the time-to-live, the cleaner) and the calls are those the search
    left, every array of the heap has the same elements as after the search,
    and every array other than the first candidate's is as it was. *)
Theorem HydrateTrack_frame (env : Env) (st : Store) (track : Track_) :
  let search := SearchMusicBrainz env st (hydrate_params track) in
  let st1 := fst search in
  let st2 := fst (HydrateTrack env st track) in
  svc st2 = svc st1 /\
  calls st2 = calls st1 /\
  (forall l, Permutation (slice_elems (heap st1) l) (slice_elems (heap st2) l)) /\
  (forall l, (forall r rest, snd search = Ok (r :: rest) -> l <> rec_Releases r) ->
             heap st2 !! l = heap st1 !! l).
Proof.
  intros search st1 st2. subst st1 st2.
  destruct search as [st1 [[|r rest]|e]] eqn:Hs; subst search; simpl fst; simpl snd.
  - rewrite (HydrateTrack_no_results _ _ _ _ Hs). simpl. auto.
  - rewrite (HydrateTrack_candidate _ _ _ _ _ _ Hs). simpl.
    split; [reflexivity|]. split; [reflexivity|]. split.
    + intros l. destruct (decide (l = rec_Releases r)) as [->|Hne].
      * rewrite GetBestRelease_elems. apply SliceStable_releases_perm.
      * destruct (GetBestRelease_heap (heap st1) (rec_Releases r) (rec_Title r))
          as [[_ ->]|[_ ->]]; [reflexivity|].
        unfold slice_elems. rewrite lookup_insert_ne by congruence. reflexivity.
    + intros l Hl. specialize (Hl r rest eq_refl).
      destruct (GetBestRelease_heap (heap st1) (rec_Releases r) (rec_Title r))
        as [[_ ->]|[_ ->]]; [reflexivity|].
      apply lookup_insert_ne. congruence.
  - rewrite (HydrateTrack_search_failed _ _ _ _ _ Hs). simpl. auto.
Qed.

(** X17: hydrating the same track again.  After a hydration whose search
    found no trusted entry and succeeded, a second hydration of the track at
    any clock before the expiry of the entry makes no call, leaves the store
    as the first one left it and ends as the first one did: with the same
    track, the same error or the same panic. *)
Theorem HydrateTrack_repeated (env1 env2 : Env) (st : Store) (track : Track_)
    (recs : list MusicBrainzRecording) :
  no_parameter (hydrate_params track) = false ->
  trusted env1 st (generateCacheKey (cleaned st (hydrate_params track))) = None ->
  snd (SearchMusicBrainz env1 st (hydrate_params track)) = Ok recs ->
  clock_check env2 < clock_store env1 + cacheTTL (svc st) ->
  HydrateTrack env2 (fst (HydrateTrack env1 st track)) track
  = HydrateTrack env1 st track.
Proof.
  intros Hv Ht Hok Hclock.
  destruct (SearchMusicBrainz env1 st (hydrate_params track)) as [st1 res] eqn:Hs.
  simpl in Hok. subst res.
  pose proof Hs as Hs'.
  rewrite (SearchMusicBrainz_valid _ _ _ Hv), cache_or_fetch_trusted, Ht in Hs'.
  destruct (fetch_spec env1 st (generateCacheKey (cleaned st (hydrate_params track)))
              (cleaned st (hydrate_params track)))
    as [(ctx & _ & E)|[(_ & _ & E)|(Hw & _ &
         [(ctx & _ & E)|[(c & b & _ & _ & E)|[(b & _ & _ & E)|
          (b & js & _ & _ & E)]]])]];
    rewrite E in Hs'; try discriminate.
  injection Hs' as Hst Hrecs. clear E.
  set (entry := {| recordings := snd (alloc_recordings (heap st) js);
                   expiresAt := clock_store env1 + cacheTTL (svc st) |}) in *.
  assert (Hhit : forall h,
             SearchMusicBrainz env2 (set_heap h st1) (hydrate_params track)
             = (set_heap h st1, Ok recs)).
  { intros h. rewrite <- Hrecs.
    apply (SearchMusicBrainz_hit env2 (set_heap h st1) (hydrate_params track) entry);
      [exact Hv| |exact Hclock].
    rewrite <- Hst. simpl. apply lookup_insert_eq. }
  destruct recs as [|r rest].
  - rewrite (HydrateTrack_no_results _ _ _ _ Hs). simpl fst.
    apply HydrateTrack_no_results.
    specialize (Hhit (heap st1)). now destruct st1.
  - rewrite (HydrateTrack_candidate _ _ _ _ _ _ Hs). simpl fst.
    rewrite (HydrateTrack_candidate _ _ _ _ _ _ (Hhit _)). simpl heap.
    pose proof (GetBestRelease_elems (heap st1) (rec_Releases r) (rec_Title r)) as Hel.
    set (h' := fst (GetBestRelease (heap st1) (rec_Releases r) (rec_Title r))) in *.
    assert (Hsorted : SliceStable release_less (slice_elems h' (rec_Releases r))
                      = slice_elems h' (rec_Releases r))
      by (rewrite Hel; apply SliceStable_releases_idem).
    rewrite (GetBestRelease_sorted_heap h' _ (rec_Title r) Hsorted).
    rewrite (GetBestRelease_scan h'), Hsorted, Hel.
    rewrite <- (GetBestRelease_scan (heap st1)). reflexivity.
Qed.

(** The first hydration fetches a complete candidate at 0, the second is
    served at 3600 while the catalogue is down. *)
Lemma HydrateTrack_repeated_witness :
  HydrateTrack (unavailable 3600)
    (fst (HydrateTrack (answering 0 [candidate_complete]) empty_store sample_track))
    sample_track
  = HydrateTrack (answering 0 [candidate_complete]) empty_store sample_track.
Proof.
  apply (HydrateTrack_repeated (answering 0 [candidate_complete]) (unavailable 3600)
           empty_store sample_track
           (snd (alloc_recordings ∅ [candidate_complete]))
           eq_refl eq_refl eq_refl).
  reflexivity.
Defined.

(** ** The query and the endpoint *)

Lemma url_safe_escape_byte (c : ascii) : all_bytes url_safe (escape_byte c) = true.
Proof. each_byte c; reflexivity. Qed.

Lemma all_bytes_app (p : ascii -> bool) (s t : string) :
  all_bytes p (s ++ t) = all_bytes p s && all_bytes p t.
Proof.
  induction s as [|c s IH]; simpl; [reflexivity|].
  now rewrite IH, andb_assoc.
Qed.

Lemma url_safe_QueryEscape (s : string) : all_bytes url_safe (QueryEscape s) = true.
Proof.
  induction s as [|c s IH]; simpl; [reflexivity|].
  now rewrite all_bytes_app, url_safe_escape_byte, IH.
Qed.

(** X18: the values reach the endpoint and the fingerprint escaped.  The
    endpoint is the fixed address, an escaped query and the fixed options,
    and the fingerprint is the three field names with an escaped value each;
    an escaped value holds only letters, digits and the bytes [-_.~+%] (no
    space, quote, [&], [=] or [#]) and decodes back to the value. *)
Theorem endpoint_and_key_are_escaped (query : string) (params : SearchParams) :
  (exists q,
     endpoint_of query
     = "https://musicbrainz.org/ws/2/recording?query=" ++ q
       ++ "&fmt=json&inc=artists+releases+isrcs" /\
     all_bytes url_safe q = true /\ unescape q = Some query) /\
  (exists t a r,
     generateCacheKey params = "track=" ++ t ++ "&artist=" ++ a ++ "&release=" ++ r /\
     all_bytes url_safe t = true /\ unescape t = Some (Track params) /\
     all_bytes url_safe a = true /\ unescape a = Some (Artist params) /\
     all_bytes url_safe r = true /\ unescape r = Some (Release params)).
Proof.
  split.
  - exists (QueryEscape query).
    split; [reflexivity|]. split; [apply url_safe_QueryEscape|apply unescape_QueryEscape].
  - exists (QueryEscape (Track params)), (QueryEscape (Artist params)),
      (QueryEscape (Release params)).
    split; [reflexivity|].
    repeat split; first [apply url_safe_QueryEscape|apply unescape_QueryEscape].
Qed.

Lemma append_assoc (a b c : string) : (a ++ b) ++ c = a ++ (b ++ c).
Proof.
  induction a as [|x a IH]; [reflexivity|].
  change (String x ((a ++ b) ++ c) = String x (a ++ (b ++ c))). now f_equal.
Qed.

(** X19: the query does not escape the quote that closes a value.  A track
    that holds a quote followed by an artist clause gives, with no artist,
    the query of the track before the quote with that artist: two different
    parameters, cached under two fingerprints, send the same query. *)
Theorem build_query_quote_not_escaped (a b r : string) :
  a <> EmptyString -> b <> EmptyString ->
  let forged := {| Track := a ++ dquote ++ " AND artist:" ++ dquote ++ b;
                   Artist := EmptyString; Release := r |} in
  let plain := {| Track := a; Artist := b; Release := r |} in
  build_query forged = build_query plain /\
  generateCacheKey forged <> generateCacheKey plain.
Proof.
  intros Ha Hb forged plain. split.
  - unfold build_query, forged, plain. simpl Track. simpl Artist. simpl Release.
    destruct a as [|x a]; [contradiction|].
    destruct b as [|y b]; [contradiction|].
    destruct r as [|z r]; simpl; unfold Join; simpl;
      now rewrite !append_assoc.
  - intros H. apply generateCacheKey_inj in H.
    unfold forged, plain in H. injection H as _ H. now destruct Hb.
Qed.

(** The track [Song" AND artist:"Band] against the track Song by Band. *)
Lemma build_query_quote_not_escaped_witness :
  build_query {| Track := "Song" ++ dquote ++ " AND artist:" ++ dquote ++ "Band";
                 Artist := EmptyString; Release := EmptyString |}
  = build_query {| Track := "Song"; Artist := "Band"; Release := EmptyString |}.
Proof.
  apply (build_query_quote_not_escaped "Song" "Band" EmptyString); discriminate.
Defined.

(** X20: the parameters are tested before they are cleaned and not after.
    When the release is empty and the cleaner returns the empty string for the
    track and for the artist, the search of valid parameters still goes on:
    without a trusted entry, it waits on the limiter and, once admitted and
    the request created, sends the empty query, under the fingerprint of
    three empty fields. *)
Theorem SearchMusicBrainz_cleaned_to_nothing (env : Env) (st : Store)
    (params : SearchParams) :
  no_parameter params = false ->
  Release params = EmptyString ->
  fst (CleanRecording (cleaner (svc st)) (Track params)) = EmptyString ->
  fst (CleanArtist (cleaner (svc st)) (Artist params)) = EmptyString ->
  trusted env st "track=&artist=&release=" = None ->
  limiter_Wait env = WaitOk ->
  NewRequest_fails env (endpoint_of EmptyString) = false ->
  calls (fst (SearchMusicBrainz env st params))
  = (calls st ++ [LimiterWait; HttpDo (endpoint_of EmptyString)])%list /\
  endpoint_of EmptyString
  = "https://musicbrainz.org/ws/2/recording?query=&fmt=json&inc=artists+releases+isrcs".
Proof.
  intros Hv Hr Ht Ha Hnone Hw Hn. split; [|reflexivity].
  rewrite (SearchMusicBrainz_valid _ _ _ Hv), cache_or_fetch_trusted.
  assert (Hc : cleaned st params
               = {| Track := EmptyString; Artist := EmptyString; Release := EmptyString |}).
  { unfold cleaned. now rewrite Hr, Ht, Ha. }
  rewrite Hc. change (generateCacheKey _) with "track=&artist=&release=".
  rewrite Hnone.
  assert (Hcalls : forall c d l, calls (record_call d (record_call c l))
                                 = (calls l ++ [c; d])%list).
  { intros. simpl. now rewrite <- app_assoc. }
  unfold fetch. change (build_query _) with EmptyString.
  rewrite Hw, Hn.
  destruct (httpClient_Do env _) as [[]|code body]; try apply Hcalls.
  destruct (negb (code =? 200)); try apply Hcalls.
  destruct (json_Decode env body); try apply Hcalls.
  destruct (alloc_recordings _ _). apply Hcalls.
Qed.

(** A cleaner that keeps nothing, and a track given alone. *)
Lemma SearchMusicBrainz_cleaned_to_nothing_witness :
  calls (fst (SearchMusicBrainz (unavailable 0)
                (with_cleaner erasing_cleaner empty_store)
                {| Track := "Song"; Artist := EmptyString; Release := EmptyString |}))
  = [LimiterWait; HttpDo (endpoint_of EmptyString)].
Proof.
  apply (SearchMusicBrainz_cleaned_to_nothing (unavailable 0)
           (with_cleaner erasing_cleaner empty_store)
           {| Track := "Song"; Artist := EmptyString; Release := EmptyString |});
    reflexivity.
Defined.

(** ** A new service *)

(** X21: a new service holds no entry, so its first valid search waits on the
    limiter; and when that search succeeds, the same search is served from
    the cache, with the store untouched, exactly while the clock is before
    the time of the write plus one hour. *)
Theorem NewMusicBrainzService_first_hour (c : MetadataCleaner) (h : Heap)
    (cs : list Call) (env1 env2 : Env) (params : SearchParams) (st1 : Store)
    (recs : list MusicBrainzRecording) :
  let st := {| svc := NewMusicBrainzService c; heap := h; calls := cs |} in
  no_parameter params = false ->
  SearchMusicBrainz env1 st params = (st1, Ok recs) ->
  (exists rest, calls st1 = (cs ++ LimiterWait :: rest)%list) /\
  (SearchMusicBrainz env2 st1 params = (st1, Ok recs)
   <-> clock_check env2 < clock_store env1 + 3600000000000).
Proof.
  intros st Hv Hs.
  assert (Ht : trusted env1 st (generateCacheKey (cleaned st params)) = None).
  { unfold trusted. simpl. now rewrite lookup_empty. }
  pose proof Hs as Hs'.
  rewrite (SearchMusicBrainz_valid _ _ _ Hv), cache_or_fetch_trusted, Ht in Hs'.
  split.
  { destruct (fetch_calls env1 st (generateCacheKey (cleaned st params))
                (cleaned st params)) as [rest Hrest].
    rewrite Hs' in Hrest. eauto. }
  destruct (fetch_spec env1 st (generateCacheKey (cleaned st params)) (cleaned st params))
    as [(ctx & _ & E)|[(_ & _ & E)|(Hw & _ &
         [(ctx & _ & E)|[(c0 & b & _ & _ & E)|[(b & _ & _ & E)|
          (b & js & _ & _ & E)]]])]];
    rewrite E in Hs'; try discriminate.
  injection Hs' as Hst Hrecs. clear E.
  set (entry := {| recordings := snd (alloc_recordings (heap st) js);
                   expiresAt := clock_store env1 + cacheTTL (svc st) |}) in *.
  assert (Hl : searchCache (svc st1) !! generateCacheKey (cleaned st1 params)
               = Some entry).
  { rewrite <- Hst. simpl. apply lookup_insert_eq. }
  split.
  - intros H2.
    destruct (Z.ltb_spec (clock_check env2) (expiresAt entry)) as [Hlt|Hge];
      [exact Hlt|exfalso].
    rewrite (SearchMusicBrainz_valid _ _ _ Hv) in H2.
    unfold cache_or_fetch in H2. rewrite Hl in H2.
    apply Z.ltb_ge in Hge. rewrite Hge in H2.
    destruct (fetch_calls env2 st1 (generateCacheKey (cleaned st1 params))
                (cleaned st1 params)) as [rest Hrest].
    rewrite H2 in Hrest. simpl in Hrest.
    apply (f_equal (@length Call)) in Hrest.
    rewrite length_app in Hrest. simpl in Hrest. lia.
  - intros Hlt. rewrite <- Hrecs.
    now apply (SearchMusicBrainz_hit env2 st1 params entry).
Qed.

(** A new service answered at 0 and written at 1: served from the cache at
    one hour, fetched again one nanosecond later. *)
Lemma NewMusicBrainzService_first_hour_witness :
  SearchMusicBrainz (unavailable 3600000000001)
    (fst (SearchMusicBrainz (answering 0 [candidate_complete])
            {| svc := NewMusicBrainzService plain_cleaner; heap := ∅; calls := [] |}
            sample_params))
    sample_params
  <> SearchMusicBrainz (answering 0 [candidate_complete])
       {| svc := NewMusicBrainzService plain_cleaner; heap := ∅; calls := [] |}
       sample_params.
Proof.
  intros H.
  apply (proj2 (NewMusicBrainzService_first_hour plain_cleaner ∅ []
                  (answering 0 [candidate_complete]) (unavailable 3600000000001)
                  sample_params
                  (fst (SearchMusicBrainz (answering 0 [candidate_complete])
                          {| svc := NewMusicBrainzService plain_cleaner;
                             heap := ∅; calls := [] |} sample_params))
                  (snd (alloc_recordings ∅ [candidate_complete]))
                  eq_refl eq_refl)) in H.
  vm_compute in H. discriminate.
Defined.

(** ** Instances of the properties of the selector and of the hydration *)

(** The release returned for the warm heap is one of its two releases. *)
Lemma GetBestRelease_returns_an_input_witness :
  In release_us_1990 [release_de_2005; release_us_1990].
Proof.
  apply (proj2 (GetBestRelease_returns_an_input (heap warm_store) 0%nat "Song")
           release_us_1990).
  reflexivity.
Defined.

(** A hydration from the warm cache leaves an array that is not the
    candidate's as it was (here an address that holds nothing). *)
Lemma HydrateTrack_frame_witness :
  heap (fst (HydrateTrack (unavailable 0) warm_store sample_track)) !! 7%nat
  = heap warm_store !! 7%nat.
Proof.
  apply (proj2 (proj2 (proj2 (HydrateTrack_frame (unavailable 0) warm_store
                                sample_track))) 7%nat).
  intros r rest H. vm_compute in H. injection H as <- _. discriminate.
Defined.
